(** * MorphStorm mesh manager: a shallow embedding of [MorphRTC] and of the
    reconnection logic of [MorphSignaling] (src/js/crypto.js).

    Modelling choices.
    - The JS [Map] [peers] (peerId -> peer object) is an association list kept
      in insertion order; [Map.set] on an existing key keeps its position.
      Its values are references ([nat]) into a heap of peer objects, so that a
      handler holding a peer object after the entry was deleted writes to the
      detached object, as in JS.
    - The cryptography provider is abstract (Section variables):
      [completeKeyExchange] (import + ECDH derive with our own key pair),
      [encrypt] (JSON.stringify + AES-GCM with a fresh IV) and [decrypt]
      (AES-GCM + JSON.parse); [None] means the promise rejects.
    - A data channel is represented by its [readyState] inside the peer
      object that owns it; [dc.send] appends to the global [wire] log when
      it returns normally, and [dc_send_ok] (a Section variable) says
      whether it does or throws.
    - Emitted events and console warnings/errors are logs in the state.
    - [sendToPeer], the key-exchange branch of [handleSignal] and
      [dc.onmessage] have two models. The definitions of Section [Mesh]
      ([sendToPeer], [kx_start] / [kx_resume], [onmessage], [broadcast])
      run them without interruption. Section [MeshAsync] splits them at
      every [await] on encryption, key derivation or decryption into tasks
      that a schedule resumes in any order, interleaved with the other
      operations; [broadcast] there is a sequence of [sendToPeer] calls. The
      first model is the second with each activation resumed to its end
      before anything else runs (theorem [uninterrupted_runs]). The awaits
      on session descriptions are taken as run to completion. *)

From Stdlib Require Import List String Ascii Bool Arith NArith Lia Permutation.
Import ListNotations.


(** ** Generic helpers: JS [Map] as an insertion-ordered association list *)

Fixpoint map_get {V} (m : list (string * V)) (k : string) : option V :=
  match m with
  | [] => None
  | (k', v) :: m' => if String.eqb k k' then Some v else map_get m' k
  end.

Fixpoint map_has {V} (m : list (string * V)) (k : string) : bool :=
  match m with
  | [] => false
  | (k', _) :: m' => if String.eqb k k' then true else map_has m' k
  end.

Fixpoint map_replace {V} (m : list (string * V)) (k : string) (v : V)
  : list (string * V) :=
  match m with
  | [] => []
  | (k', v') :: m' =>
      if String.eqb k k' then (k', v) :: m' else (k', v') :: map_replace m' k v
  end.

(** [Map.prototype.set]: overwrite in place, or append a new entry. *)
Definition map_set {V} (m : list (string * V)) (k : string) (v : V)
  : list (string * V) :=
  if map_has m k then map_replace m k v else m ++ [(k, v)].

(** [Map.prototype.delete]. *)
Definition map_delete {V} (m : list (string * V)) (k : string)
  : list (string * V) :=
  filter (fun e => negb (String.eqb k (fst e))) m.

(** [l1] is [l2] with some elements left out. *)
Inductive subseq {A} : list A -> list A -> Prop :=
  | subseq_nil : subseq [] []
  | subseq_take x l1 l2 : subseq l1 l2 -> subseq (x :: l1) (x :: l2)
  | subseq_skip x l1 l2 : subseq l1 l2 -> subseq l1 (x :: l2).

Fixpoint upd_nth {A} (f : A -> A) (n : nat) (l : list A) : list A :=
  match l, n with
  | [], _ => []
  | x :: l', 0 => f x :: l'
  | x :: l', S n' => x :: upd_nth f n' l'
  end.

(** ** The mesh manager [MorphRTC] *)

Inductive ReadyState := RConnecting | ROpen | RClosing | RClosed.

Definition ReadyState_eqb (a b : ReadyState) : bool :=
  match a, b with
  | RConnecting, RConnecting | ROpen, ROpen
  | RClosing, RClosing | RClosed, RClosed => true
  | _, _ => false
  end.

(** The [state] field: 'connecting' | 'open' | 'encrypted'. *)
Inductive PeerState := Connecting | Open | Encrypted.

Section Mesh.

Context {Key PubKey Cipher Msg Candidate : Type}.

(** [myPublicKeyJwk], set by [init]. *)
Variable myPublicKeyJwk : PubKey.
(** [MorphCrypto.completeKeyExchange(myKeyPair, jwk)]. *)
Variable completeKeyExchange : PubKey -> option Key.
(** [MorphCrypto.encrypt(key, JSON.stringify(msg))]. *)
Variable encrypt : Key -> Msg -> option Cipher.
(** Whether [dc.send(encrypted)] on the open channel of [peerId] returns
    normally; [false] when it throws (the transport refuses the frame, e.g.
    its send buffer is full). *)
Variable dc_send_ok : string -> Cipher -> bool.
(** [JSON.parse(await MorphCrypto.decrypt(key, raw))]. *)
Variable decrypt : Key -> Cipher -> option Msg.
(** Whether [pc.addIceCandidate] resolves for this candidate. *)
Variable addIceCandidate_ok : Candidate -> bool.

(** The peer object [{connection, dataChannel, sharedKey, name, state,
    isInitiator, pendingMessages}]; [connectionClosed] records
    [connection.close()]. *)
Record Peer := mkPeer {
  connectionClosed : bool;
  dataChannel : option ReadyState;
  sharedKey : option Key;
  name : string;
  state : PeerState;
  isInitiator : bool;
  pendingMessages : list Msg
}.

Definition set_sharedKey (k : option Key) (p : Peer) : Peer :=
  mkPeer (connectionClosed p) (dataChannel p) k (name p) (state p)
    (isInitiator p) (pendingMessages p).
Definition set_state (s : PeerState) (p : Peer) : Peer :=
  mkPeer (connectionClosed p) (dataChannel p) (sharedKey p) (name p) s
    (isInitiator p) (pendingMessages p).
Definition set_pending (q : list Msg) (p : Peer) : Peer :=
  mkPeer (connectionClosed p) (dataChannel p) (sharedKey p) (name p) (state p)
    (isInitiator p) q.
Definition set_dataChannel (d : option ReadyState) (p : Peer) : Peer :=
  mkPeer (connectionClosed p) d (sharedKey p) (name p) (state p)
    (isInitiator p) (pendingMessages p).
Definition close_connection (p : Peer) : Peer :=
  mkPeer true (dataChannel p) (sharedKey p) (name p) (state p)
    (isInitiator p) (pendingMessages p).

(** What goes over a data channel: the control frame
    [{_morph:'key-exchange', publicKey}] or an encrypted application frame. *)
Inductive Frame :=
  | FCtrl (publicKey : option PubKey)
  | FData (c : Cipher).

(** Events emitted on the [MorphRTC] bus. *)
Inductive Event :=
  | PeerConnected (peerId : string) (nm : option string)
  | PeerEncrypted (peerId : string) (nm : string)
  | PeerDisconnected (peerId : string) (nm : string)
  | MessageEv (fromPeerId : string) (fromName : string) (m : Msg).

(** console.warn / console.error calls. *)
Inductive LogEntry :=
  | LogIceError (peerId : string)
  | LogKxFailed (peerId : string)
  | LogNoKey (peerId : string)
  | LogDecodeError (peerId : string)
  | LogChannelNotOpen (peerId : string)
  | LogSendError (peerId : string).

Record St := mkSt {
  peers : list (string * nat);
  heap : list Peer;
  events : list Event;
  wire : list (string * Frame);
  logs : list LogEntry
}.

Definition with_peers (m : list (string * nat)) (s : St) : St :=
  mkSt m (heap s) (events s) (wire s) (logs s).
Definition upd_peer (l : nat) (f : Peer -> Peer) (s : St) : St :=
  mkSt (peers s) (upd_nth f l (heap s)) (events s) (wire s) (logs s).
Definition emit (e : Event) (s : St) : St :=
  mkSt (peers s) (heap s) (events s ++ [e]) (wire s) (logs s).
Definition transmit (id : string) (f : Frame) (s : St) : St :=
  mkSt (peers s) (heap s) (events s) (wire s ++ [(id, f)]) (logs s).
Definition log (e : LogEntry) (s : St) : St :=
  mkSt (peers s) (heap s) (events s) (wire s) (logs s ++ [e]).
(** A new object: its reference is the next heap index. *)
Definition alloc (p : Peer) (s : St) : nat * St :=
  (List.length (heap s), mkSt (peers s) (heap s ++ [p]) (events s) (wire s) (logs s)).

(** [peers.get(peerId)], dereferenced. *)
Definition lookup (s : St) (id : string) : option (nat * Peer) :=
  match map_get (peers s) id with
  | Some l => match nth_error (heap s) l with
              | Some p => Some (l, p)
              | None => None
              end
  | None => None
  end.

(** [sendToPeer(peerId, messageObj)]; the boolean is the resolved value. *)
Definition sendToPeer (s : St) (id : string) (m : Msg) : St * bool :=
  match lookup s id with
  | None => (s, false)
  | Some (l, p) =>
      match sharedKey p with
      | None => (upd_peer l (fun q => set_pending (pendingMessages q ++ [m]) q) s, true)
      | Some k =>
          match dataChannel p with
          | Some ROpen =>
              match encrypt k m with
              | Some c =>
                  if dc_send_ok id c then (transmit id (FData c) s, true)
                  else (log (LogSendError id) s, false)
              | None => (log (LogSendError id) s, false)
              end
          | _ => (log (LogChannelNotOpen id) s, false)
          end
      end
  end.

(** [for (const msg of peer.pendingMessages) await sendToPeer(peerId, msg)] *)
Fixpoint flush (s : St) (id : string) (ms : list Msg) : St :=
  match ms with
  | [] => s
  | m :: ms' => flush (fst (sendToPeer s id m)) id ms'
  end.

(** The key-exchange branch of [handleSignal], suspended at
    [await MorphCrypto.completeKeyExchange(...)]: the continuation holds the
    peer id, the peer object found and the received public key. *)
Record KxTask := mkKx { kx_id : string; kx_loc : nat; kx_pk : PubKey }.

Definition kx_start (s : St) (id : string) (pk : option PubKey) : option KxTask :=
  match lookup s id, pk with
  | Some (l, _), Some pk => Some (mkKx id l pk)
  | _, _ => None
  end.

(** The continuation after the derivation: it writes to the peer object it
    holds, whether or not that object is still in [peers]. *)
Definition kx_resume (s : St) (t : KxTask) : St :=
  let id := kx_id t in
  let l := kx_loc t in
  match nth_error (heap s) l with
  | None => s
  | Some p =>
      match completeKeyExchange (kx_pk t) with
      | None => log (LogKxFailed id) s
      | Some k =>
          let s1 := upd_peer l (fun q => set_state Encrypted (set_sharedKey (Some k) q)) s in
          let s2 := emit (PeerEncrypted id (name p)) s1 in
          let s3 := flush s2 id (pendingMessages p) in
          upd_peer l (set_pending []) s3
      end
  end.

(** The key-exchange branch run to completion. *)
Definition handle_kx (s : St) (id : string) (pk : option PubKey) : St :=
  match kx_start s id pk with
  | None => s
  | Some t => kx_resume s t
  end.

(** [handlePeerDisconnect(peerId)]. *)
Definition handlePeerDisconnect (s : St) (id : string) : St :=
  match lookup s id with
  | None => s
  | Some (l, p) =>
      emit (PeerDisconnected id (name p))
        (with_peers (map_delete (peers s) id) (upd_peer l close_connection s))
  end.

(** [disconnectPeer(peerId)]. *)
Definition disconnectPeer (s : St) (id : string) : St := handlePeerDisconnect s id.

(** [for (const [peerId] of peers) handlePeerDisconnect(peerId); peers.clear()].
    Deleting the current entry during a JS [Map] iteration does not disturb
    the iteration over the remaining entries, so the loop visits the keys
    present when it starts. *)
Definition disconnectAll (s : St) : St :=
  with_peers [] (fold_left handlePeerDisconnect (map fst (peers s)) s).

(** [broadcast(messageObj)]: one [await sendToPeer] per entry, in [Map]
    order, collecting the results. *)
Fixpoint broadcast_loop (s : St) (ids : list string) (m : Msg) : St * list bool :=
  match ids with
  | [] => (s, [])
  | id :: ids' =>
      let (s1, r) := sendToPeer s id m in
      let (s2, rs) := broadcast_loop s1 ids' m in
      (s2, r :: rs)
  end.

Definition broadcast (s : St) (m : Msg) : St * list bool :=
  broadcast_loop s (map fst (peers s)) m.

(** [getPeerList()]: [{id, name, state, encrypted: !!sharedKey}] per entry. *)
Record PeerInfo := mkInfo {
  info_id : string;
  info_name : string;
  info_state : PeerState;
  info_encrypted : bool
}.

Definition getPeerList (s : St) : list PeerInfo :=
  flat_map (fun e =>
    match nth_error (heap s) (snd e) with
    | Some p => [mkInfo (fst e) (name p) (state p)
                   (match sharedKey p with Some _ => true | None => false end)]
    | None => []
    end) (peers s).

(** [connectToPeer(peerId, peerName)]: a new initiator object with its own
    (connecting) data channel; the offer itself goes to the signaling server. *)
Definition connectToPeer (s : St) (id nm : string) : St :=
  let (l, s1) := alloc (mkPeer false (Some RConnecting) None nm Connecting true []) s in
  with_peers (map_set (peers s1) id l) s1.

(** The [signal] argument of [handleSignal]; session descriptions are opaque. *)
Inductive Signal :=
  | SigOffer
  | SigAnswer
  | SigIceCandidate (candidate : option Candidate)
  | SigKeyExchange (publicKey : option PubKey)
  | SigOther.

(** [handleSignal(fromPeerId, fromPeerName, signal)]. The offer branch
    creates and stores the responder's object (its data channel arrives
    later through [ondatachannel]); [setRemoteDescription] on an answer does
    not touch the session table. *)
Definition handleSignal (s : St) (from nm : string) (sg : Signal) : St :=
  match sg with
  | SigOffer =>
      let (l, s1) := alloc (mkPeer false None None nm Connecting false []) s in
      with_peers (map_set (peers s1) from l) s1
  | SigAnswer => s
  | SigIceCandidate c =>
      match lookup s from, c with
      | Some _, Some c => if addIceCandidate_ok c then s else log (LogIceError from) s
      | _, _ => s
      end
  | SigKeyExchange pk => handle_kx s from pk
  | SigOther => s
  end.

(** [pc.ondatachannel] of the responder: [peerState.dataChannel = dc], on the
    object the closure holds. *)
Definition ondatachannel (s : St) (l : nat) (rs : ReadyState) : St :=
  upd_peer l (set_dataChannel (Some rs)) s.

(** The transport changes the [readyState] of the channel owned by object [l]. *)
Definition set_readyState (s : St) (l : nat) (rs : ReadyState) : St :=
  upd_peer l (set_dataChannel (Some rs)) s.

(** [dc.onopen] of the channel owned by object [l], set up for [peerId]. *)
Definition dc_onopen (s : St) (id : string) (l : nat) : St :=
  let s0 := set_readyState s l ROpen in
  let (s1, nm) :=
    match lookup s0 id with
    | Some (l', p) => (upd_peer l' (set_state Open) s0, Some (name p))
    | None => (s0, None)
    end in
  emit (PeerConnected id nm) (transmit id (FCtrl (Some myPublicKeyJwk)) s1).

(** [dc.onmessage] for [peerId]: a control frame goes to [handleSignal]; an
    application frame is decrypted; every failure is caught and logged. *)
Definition onmessage (s : St) (id : string) (raw : Frame) : St :=
  match lookup s id with
  | None => s
  | Some (_, p) =>
      match raw with
      | FCtrl pk => handleSignal s id (name p) (SigKeyExchange pk)
      | FData c =>
          match sharedKey p with
          | None => log (LogNoKey id) s
          | Some k =>
              match decrypt k c with
              | None => log (LogDecodeError id) s
              | Some m => emit (MessageEv id (name p) m) s
              end
          end
      end
  end.

(** Terminal reports that call [handlePeerDisconnect]: an ICE state change
    (only 'disconnected', 'failed' and 'closed' act), [dc.onclose], and an
    explicit [disconnectPeer]. *)
Inductive IceState := IceNew | IceChecking | IceConnected | IceCompleted
                    | IceDisconnected | IceFailed | IceClosed.

Inductive Teardown :=
  | OnIceStateChange (st : IceState)
  | OnChannelClose
  | Explicit.

Definition on_teardown (s : St) (id : string) (t : Teardown) : St :=
  match t with
  | OnIceStateChange IceDisconnected | OnIceStateChange IceFailed
  | OnIceStateChange IceClosed => handlePeerDisconnect s id
  | OnIceStateChange _ => s
  | OnChannelClose => handlePeerDisconnect s id
  | Explicit => disconnectPeer s id
  end.

Definition terminal (t : Teardown) : bool :=
  match t with
  | OnIceStateChange IceDisconnected | OnIceStateChange IceFailed
  | OnIceStateChange IceClosed | OnChannelClose | Explicit => true
  | OnIceStateChange _ => false
  end.

(** A sequence of [sendToPeer] calls for one peer, in submission order. *)
Fixpoint send_all (s : St) (id : string) (ms : list Msg) : St :=
  match ms with
  | [] => s
  | m :: ms' => send_all (fst (sendToPeer s id m)) id ms'
  end.

(** Frames delivered one after the other on the channel of [peerId]. *)
Definition on_messages (s : St) (id : string) (fs : list Frame) : St :=
  fold_left (fun s f => onmessage s id f) fs s.

(** The state with its console log erased, to compare runs that differ only
    in what they printed. *)
Definition strip (s : St) : St := mkSt (peers s) (heap s) (events s) (wire s) [].

(** What [sendToPeer(id, m)] does, run without interruption, with the
    object [p] found for a table entry: its result, and the frame it
    transmits. *)
Definition send_result (id : string) (p : option Peer) (m : Msg) : bool :=
  match p with
  | None => false
  | Some p =>
      match sharedKey p with
      | None => true
      | Some k =>
          match dataChannel p with
          | Some ROpen => match encrypt k m with Some c => dc_send_ok id c | None => false end
          | _ => false
          end
      end
  end.

Definition send_frames (id : string) (p : option Peer) (m : Msg) : list (string * Frame) :=
  match p with
  | Some p =>
      match sharedKey p, dataChannel p with
      | Some k, Some ROpen =>
          match encrypt k m with
          | Some c => if dc_send_ok id c then [(id, FData c)] else []
          | None => []
          end
      | _, _ => []
      end
  | None => []
  end.

(** Whether an object holds a shared key ([encrypted] in [getPeerList]). *)
Definition keyed (p : option Peer) : bool :=
  match p with
  | Some p => match sharedKey p with Some _ => true | None => false end
  | None => false
  end.
End Mesh.

(** ** Reconnection of the signaling client [MorphSignaling] *)

Module Signaling.

Definition MAX_RECONNECT : nat := 5.
Definition RECONNECT_DELAY : nat := 3000.

(** The current [ws] object: none yet, or its lifecycle. *)
Inductive WsState := WsNone | WsConnecting | WsOpen | WsClosed.

(** Payloads of [emit('status', {state})]. *)
Inductive Status := StConnecting | StConnected | StDisconnected | StError | StFailed.

Record SigSt := mkSig {
  reconnectAttempts : nat;
  timerPending : bool;        (* a [reconnectTimer] is armed *)
  ws : WsState;
  statuses : list Status;     (* emitted 'status' events *)
  timers : list nat           (* delays passed to [setTimeout] for reconnection *)
}.

Definition emit_status (x : Status) (s : SigSt) : SigSt :=
  mkSig (reconnectAttempts s) (timerPending s) (ws s) (statuses s ++ [x]) (timers s).

(** [attemptReconnect()]. *)
Definition attemptReconnect (s : SigSt) : SigSt :=
  if MAX_RECONNECT <=? reconnectAttempts s then emit_status StFailed s
  else mkSig (S (reconnectAttempts s)) true (ws s) (statuses s)
         (timers s ++ [RECONNECT_DELAY]).

(** [connect()]: a new WebSocket, status 'connecting'. *)
Definition connect (s : SigSt) : SigSt :=
  mkSig (reconnectAttempts s) (timerPending s) WsConnecting
    (statuses s ++ [StConnecting]) (timers s).

(** The reconnection timer fires: [connect().catch(() => {})]. *)
Definition timer_fire (s : SigSt) : SigSt :=
  connect (mkSig (reconnectAttempts s) false (ws s) (statuses s) (timers s)).

(** [ws.onopen]. *)
Definition onopen (s : SigSt) : SigSt :=
  mkSig 0 (timerPending s) WsOpen (statuses s ++ [StConnected]) (timers s).

(** [ws.onerror]. *)
Definition onerror (s : SigSt) : SigSt := emit_status StError s.

(** [ws.onclose]: status 'disconnected', then [attemptReconnect()]. *)
Definition onclose (s : SigSt) : SigSt :=
  attemptReconnect
    (mkSig (reconnectAttempts s) (timerPending s) WsClosed
       (statuses s ++ [StDisconnected]) (timers s)).

(** [disconnect()] (a user action): clears the timer and blocks further
    reconnection; the socket's close event follows as an [LClose] step. *)
Definition disconnect (s : SigSt) : SigSt :=
  mkSig MAX_RECONNECT false (ws s) (statuses s) (timers s).

(** Events that happen without any user action. *)
Inductive Label := LTimer | LOpen | LError | LClose.

Definition ws_live (w : WsState) : bool :=
  match w with WsConnecting | WsOpen => true | _ => false end.

(** One automatic step, [None] when the event cannot occur in [s]. *)
Definition step (s : SigSt) (lb : Label) : option SigSt :=
  match lb with
  | LTimer => if timerPending s then Some (timer_fire s) else None
  | LOpen => match ws s with WsConnecting => Some (onopen s) | _ => None end
  | LError => if ws_live (ws s) then Some (onerror s) else None
  | LClose => if ws_live (ws s) then Some (onclose s) else None
  end.

Fixpoint run (s : SigSt) (ls : list Label) : option SigSt :=
  match ls with
  | [] => Some s
  | lb :: ls' => match step s lb with
                 | Some s1 => run s1 ls'
                 | None => None
                 end
  end.

(** The invariant of the automatic regime: a timer is armed only while the
    socket is closed, and the counter never exceeds the bound. *)
Definition wf (s : SigSt) : Prop :=
  (timerPending s = true -> ws s = WsClosed) /\ reconnectAttempts s <= MAX_RECONNECT.

End Signaling.

(** ** A concrete instance of the providers, for evaluation *)

Module Demo.
(** Keys and public keys are numbers, a public key derives the key equal to
    it, and a ciphertext is the pair (key, message). *)
Definition derive (pk : nat) : option nat := Some pk.
Definition enc (k m : nat) : option (nat * nat) := Some (k, m).
Definition dec (k : nat) (c : nat * nat) : option nat :=
  if Nat.eqb k (fst c) then Some (snd c) else None.
Definition ice_ok (c : bool) : bool := c.
(** The transport accepts every frame. *)
Definition send_ok {C} (id : string) (c : C) : bool := true.
Definition myPub : nat := 7.

Definition empty : @St nat nat (nat * nat) nat := mkSt [] [] [] [] [].

(** We initiate to peer "b" (Bob); two messages are submitted before the
    channel is up; the channel opens; Bob's key-exchange frame arrives. *)
Definition s_conn := connectToPeer empty "b"%string "Bob"%string.
Definition s_open := dc_onopen myPub s_conn "b"%string 0.
Definition s_queued := send_all enc send_ok s_open "b"%string [1; 2].
Definition s_enc := onmessage derive enc send_ok dec ice_ok s_queued "b"%string (FCtrl (Some 9)).
(** Bob's channel starts closing while his session is still in the table. *)
Definition s_closing := set_readyState s_enc 0 RClosing.
(** Carol's offer arrives while Bob's session is encrypted. *)
Definition s_two := handleSignal derive enc send_ok ice_ok s_enc "c"%string "Carol"%string SigOffer.
(** Bob's session, torn down before any key exchange. *)
Definition s_gone := disconnectPeer s_conn "b"%string.

(** A signaling client whose counter has reached the bound, socket open. *)
Definition sig_exhausted : Signaling.SigSt := Signaling.mkSig 5 false Signaling.WsOpen [] [].
End Demo.

(** ** Further entry points of [MorphRTC] *)

Section MeshApi.

Context {Key PubKey Cipher Msg Candidate : Type}.
Variable myPublicKeyJwk : PubKey.
Variable completeKeyExchange : PubKey -> option Key.
Variable encrypt : Key -> Msg -> option Cipher.
Variable dc_send_ok : string -> Cipher -> bool.
Variable decrypt : Key -> Cipher -> option Msg.
Variable addIceCandidate_ok : Candidate -> bool.

Local Abbreviation St := (@St Key PubKey Cipher Msg).

(** [getPeerCount()]: [peers.size]. *)
Definition getPeerCount (s : St) : nat := List.length (peers s).

(** [isPeerConnected(peerId)]:
    [peer && peer.dataChannel && peer.dataChannel.readyState === 'open'],
    read as a truth value (the JS result is [undefined], [null] or a boolean). *)
Definition isPeerConnected (s : St) (id : string) : bool :=
  match lookup s id with
  | Some (_, p) => match dataChannel p with Some ROpen => true | _ => false end
  | None => false
  end.

(** Everything that can act on the mesh: the exported functions, the
    callbacks installed on connections and channels, and a key derivation
    that completes after other operations ran ([OResume]). *)
Inductive Op :=
  | OConnectToPeer (id nm : string)
  | OHandleSignal (from nm : string) (sg : @Signal PubKey Candidate)
  | OResume (t : @KxTask PubKey)
  | OSendToPeer (id : string) (m : Msg)
  | OBroadcast (m : Msg)
  | ODisconnectPeer (id : string)
  | ODisconnectAll
  | ODataChannel (l : nat) (rs : ReadyState)
  | OReadyState (l : nat) (rs : ReadyState)
  | OOpen (id : string) (l : nat)
  | OMessage (id : string) (f : @Frame PubKey Cipher)
  | OTeardown (id : string) (t : Teardown).

Definition exec_op (s : St) (o : Op) : St :=
  match o with
  | OConnectToPeer id nm => connectToPeer s id nm
  | OHandleSignal from nm sg =>
      handleSignal completeKeyExchange encrypt dc_send_ok addIceCandidate_ok s from nm sg
  | OResume t => kx_resume completeKeyExchange encrypt dc_send_ok s t
  | OSendToPeer id m => fst (sendToPeer encrypt dc_send_ok s id m)
  | OBroadcast m => fst (broadcast encrypt dc_send_ok s m)
  | ODisconnectPeer id => disconnectPeer s id
  | ODisconnectAll => disconnectAll s
  | ODataChannel l rs => ondatachannel s l rs
  | OReadyState l rs => set_readyState s l rs
  | OOpen id l => dc_onopen myPublicKeyJwk s id l
  | OMessage id f =>
      onmessage completeKeyExchange encrypt dc_send_ok decrypt addIceCandidate_ok s id f
  | OTeardown id t => on_teardown s id t
  end.

Definition exec (s : St) (os : list Op) : St := fold_left exec_op os s.

(** The shape of the session table: distinct ids, each referring to an
    allocated peer object. *)
Definition table_ok (s : St) : Prop :=
  NoDup (map fst (peers s)) /\
  Forall (fun e => snd e < List.length (heap s)) (peers s).

(** The 'room-joined' handler of [MorphApp]:
    [data.peers.forEach(peer => MorphRTC.connectToPeer(peer.id, peer.name))];
    each call stores its session before its first [await]. *)
Definition on_room_joined (s : St) (ps : list (string * string)) : St :=
  fold_left (fun s p => connectToPeer s (fst p) (snd p)) ps s.

End MeshApi.

(** ** Interleavings at the [await]s

    The key-exchange continuation, [sendToPeer] and [dc.onmessage] are async
    functions: at each [await] they suspend, and any other event may run
    before they resume. Here a suspended activation is a task in a pool,
    tagged with the identity of its activation; the definitions above are
    the runs in which each task is resumed at once ([drive] below). Every
    [await] is a point where other events may run. *)

Section MeshAsync.

Context {Key PubKey Cipher Msg Candidate : Type}.
Variable myPublicKeyJwk : PubKey.
Variable completeKeyExchange : PubKey -> option Key.
Variable encrypt : Key -> Msg -> option Cipher.
Variable dc_send_ok : string -> Cipher -> bool.
Variable decrypt : Key -> Cipher -> option Msg.
Variable addIceCandidate_ok : Candidate -> bool.

Local Abbreviation St := (@St Key PubKey Cipher Msg).

(** How the synchronous part of [sendToPeer] ends: it returns its result,
    or it suspends at [await MorphCrypto.encrypt(peer.sharedKey, ...)]
    holding the object [peer] it found and the key it read. *)
Inductive SendSusp := SDone (b : bool) | SEnc (l : nat) (k : Key).

Definition send_start (s : St) (id : string) (m : Msg) : St * SendSusp :=
  match lookup s id with
  | None => (s, SDone false)
  | Some (l, p) =>
      match sharedKey p with
      | None => (upd_peer l (fun q => set_pending (pendingMessages q ++ [m]) q) s, SDone true)
      | Some k =>
          match dataChannel p with
          | Some ROpen => (s, SEnc l k)
          | _ => (log (LogChannelNotOpen id) s, SDone false)
          end
      end
  end.

(** After the encryption: [peer.dataChannel.send(encrypted); return true],
    on the channel the object holds now. [send] throws when that channel is
    no longer open or the transport refuses the frame; the [catch] logs and
    returns [false]. *)
Definition send_finish (s : St) (id : string) (l : nat) (k : Key) (m : Msg) : St * bool :=
  match encrypt k m with
  | None => (log (LogSendError id) s, false)
  | Some c =>
      match option_map dataChannel (nth_error (heap s) l) with
      | Some (Some ROpen) =>
          if dc_send_ok id c then (transmit id (FData c) s, true)
          else (log (LogSendError id) s, false)
      | _ => (log (LogSendError id) s, false)
      end
  end.

(** A suspended activation:
    - [TDerive t]: the key-exchange branch of [handleSignal] at
      [await MorphCrypto.completeKeyExchange(...)];
    - [TFlush id l ms]: the same activation in its loop
      [for (const msg of peer.pendingMessages) await sendToPeer(fromPeerId, msg)]
      at the [await], with [ms] the elements the loop has still to visit;
    - [TFlushSend id l sl k m ms]: the same, while the [sendToPeer] call for
      [m] is suspended at its encryption ([sl], [k]: the object it found and
      the key it read);
    - [TSend id sl k m]: a [sendToPeer] call made by the application
      (directly or from [broadcast]) suspended at its encryption;
    - [TDecrypt id l k c]: [dc.onmessage] at
      [await MorphCrypto.decrypt(peer.sharedKey, raw)]. *)
Inductive Task :=
  | TDerive (t : @KxTask PubKey)
  | TFlush (id : string) (l : nat) (ms : list Msg)
  | TFlushSend (id : string) (l : nat) (sl : nat) (k : Key) (m : Msg) (ms : list Msg)
  | TSend (id : string) (sl : nat) (k : Key) (m : Msg)
  | TDecrypt (id : string) (l : nat) (k : Key) (c : Cipher).

(** The loop of the key exchange with [ms] still to visit: the next
    [sendToPeer] call runs up to its own suspension; after the last element,
    [peer.pendingMessages = []]. The array the loop iterates is the one the
    object held when the loop started; nothing is pushed to it meanwhile,
    since the object has a key by then. *)
Definition flush_enter (s : St) (id : string) (l : nat) (ms : list Msg) : St * option Task :=
  match ms with
  | [] => (upd_peer l (set_pending []) s, None)
  | m :: ms' =>
      match send_start s id m with
      | (s1, SDone _) => (s1, Some (TFlush id l ms'))
      | (s1, SEnc sl k) => (s1, Some (TFlushSend id l sl k m ms'))
      end
  end.

(** Resuming a task: the state it leaves and the task it suspends as next,
    if any. *)
Definition resume (s : St) (t : Task) : St * option Task :=
  match t with
  | TDerive t =>
      let id := kx_id t in
      let l := kx_loc t in
      match nth_error (heap s) l with
      | None => (s, None)
      | Some p =>
          match completeKeyExchange (kx_pk t) with
          | None => (log (LogKxFailed id) s, None)
          | Some k =>
              let s1 := upd_peer l (fun q => set_state Encrypted (set_sharedKey (Some k) q)) s in
              let s2 := emit (PeerEncrypted id (name p)) s1 in
              flush_enter s2 id l (pendingMessages p)
          end
      end
  | TFlush id l ms => flush_enter s id l ms
  | TFlushSend id l sl k m ms => (fst (send_finish s id sl k m), Some (TFlush id l ms))
  | TSend id sl k m => (fst (send_finish s id sl k m), None)
  | TDecrypt id l k c =>
      match nth_error (heap s) l with
      | None => (s, None)
      | Some p =>
          match decrypt k c with
          | None => (log (LogDecodeError id) s, None)
          | Some m => (emit (MessageEv id (name p) m) s, None)
          end
      end
  end.

(** [sendToPeer(peerId, m)] called by the application or by [broadcast]. *)
Definition send_call (s : St) (id : string) (m : Msg) : St * option Task :=
  match send_start s id m with
  | (s1, SDone _) => (s1, None)
  | (s1, SEnc sl k) => (s1, Some (TSend id sl k m))
  end.

(** The key-exchange branch of [handleSignal] up to its [await]. *)
Definition kx_call (s : St) (id : string) (pk : option PubKey) : option Task :=
  option_map TDerive (kx_start s id pk).

(** [dc.onmessage] for [peerId] up to its first [await]. *)
Definition onmessage_call (s : St) (id : string) (raw : Frame) : St * option Task :=
  match lookup s id with
  | None => (s, None)
  | Some (l, p) =>
      match raw with
      | FCtrl pk => (s, kx_call s id pk)
      | FData c =>
          match sharedKey p with
          | None => (log (LogNoKey id) s, None)
          | Some k => (s, Some (TDecrypt id l k c))
          end
      end
  end.

(** Resuming a task again and again, as when nothing else runs in between. *)
Fixpoint drive (fuel : nat) (s : St) (t : Task) : St :=
  match fuel with
  | 0 => s
  | S f =>
      let (s', t') := resume s t in
      match t' with
      | None => s'
      | Some t' => drive f s' t'
      end
  end.

(** A configuration: the state, the suspended tasks with their tags, and
    the next fresh tag. *)
Record Cfg := mkCfg { cst : St; pool : list (nat * Task); fresh : nat }.

(** What can happen next: an operation that does not suspend (the
    teardown triggers, the channel callbacks, an offer, ... or one of the
    operations above run without interruption); a [sendToPeer] call; a
    key-exchange signal; a frame on the channel of a peer; the resumption
    of the task tagged [n]. *)
Inductive AEv :=
  | AOp (o : @Op PubKey Cipher Msg Candidate)
  | ASend (id : string) (m : Msg)
  | AKeyExchange (from : string) (pk : option PubKey)
  | AFrame (id : string) (f : @Frame PubKey Cipher)
  | AResume (n : nat).

Definition spawn (c : Cfg) (s : St) (t : option Task) : Cfg :=
  match t with
  | None => mkCfg s (pool c) (fresh c)
  | Some t => mkCfg s (pool c ++ [(fresh c, t)]) (S (fresh c))
  end.

(** The task tagged [n], and the pool without it. *)
Fixpoint take_task (n : nat) (ts : list (nat * Task)) : option (Task * list (nat * Task)) :=
  match ts with
  | [] => None
  | (n', t) :: ts' =>
      if Nat.eqb n n' then Some (t, ts')
      else match take_task n ts' with
           | Some (t', rest) => Some (t', (n', t) :: rest)
           | None => None
           end
  end.

Definition astep (c : Cfg) (e : AEv) : Cfg :=
  match e with
  | AOp o =>
      mkCfg (exec_op myPublicKeyJwk completeKeyExchange encrypt dc_send_ok decrypt
               addIceCandidate_ok (cst c) o) (pool c) (fresh c)
  | ASend id m => let (s, t) := send_call (cst c) id m in spawn c s t
  | AKeyExchange from pk => spawn c (cst c) (kx_call (cst c) from pk)
  | AFrame id f => let (s, t) := onmessage_call (cst c) id f in spawn c s t
  | AResume n =>
      match take_task n (pool c) with
      | None => c
      | Some (t, rest) =>
          let (s, t') := resume (cst c) t in
          mkCfg s (match t' with Some t' => rest ++ [(n, t')] | None => rest end) (fresh c)
      end
  end.

Fixpoint arun (c : Cfg) (es : list AEv) : Cfg :=
  match es with
  | [] => c
  | e :: es' => arun (astep c e) es'
  end.

(** The frames the activation tagged [n] puts on the wire during [es]. *)
Fixpoint sent_by (n : nat) (c : Cfg) (es : list AEv) : list (string * @Frame PubKey Cipher) :=
  match es with
  | [] => []
  | e :: es' =>
      (match e with
       | AResume n' =>
           if Nat.eqb n n' then skipn (List.length (wire (cst c))) (wire (cst (astep c e)))
           else []
       | _ => []
       end) ++ sent_by n (astep c e) es'
  end.

(** Distinct tags, all below the next fresh one. *)
Definition tags_ok (c : Cfg) : Prop :=
  NoDup (map fst (pool c)) /\ Forall (fun e => fst e < fresh c) (pool c).

(** The peer id a task sends to and the messages it has still to send. *)
Definition task_msgs (t : Task) : option (string * list Msg) :=
  match t with
  | TDerive _ => None
  | TFlush id _ ms => Some (id, ms)
  | TFlushSend id _ _ _ m ms => Some (id, m :: ms)
  | TSend id _ _ m => Some (id, [m])
  | TDecrypt id _ _ _ => Some (id, [])
  end.

End MeshAsync.

(** Schedules of the concrete instance with interleaved activations. *)

Module AsyncDemo.
Import Demo.

(** The same two queued messages, with nothing suspended yet. *)
Definition c_queued : @Cfg nat nat (nat * nat) nat := mkCfg s_queued [] 0.
(** Bob's key-exchange frame arrives and its derivation completes; the loop
    suspends in its first send; the frame arrives a second time and its
    derivation completes too; then each activation runs to its end. *)
Definition dup_schedule : list (@AEv nat (nat * nat) nat bool) :=
  [AFrame "b"%string (FCtrl (Some 9)); AResume 0; AFrame "b"%string (FCtrl (Some 9)); AResume 1;
   AResume 0; AResume 0; AResume 0; AResume 0; AResume 1; AResume 1; AResume 1; AResume 1].
(** Bob's key-exchange frame arrives; his channel starts closing while the
    key is derived; the activation then runs to its end. *)
Definition close_schedule : list (@AEv nat (nat * nat) nat bool) :=
  [AFrame "b"%string (FCtrl (Some 9)); AOp (OReadyState 0 RClosing);
   AResume 0; AResume 0; AResume 0].
(** After the first derivation, while its loop is suspended. *)
Definition s_mid := cst (arun myPub derive enc send_ok dec ice_ok c_queued (firstn 2 dup_schedule)).

End AsyncDemo.

(** ** The event buses [on] / [emit] of [MorphSignaling] and [MorphRTC] *)

Module Bus.
Section Bus.
Context {CB D : Type}.

(** [on(type, callback)]: create the list on first use, then push. *)
Definition on (h : list (string * list CB)) (type : string) (cb : CB)
  : list (string * list CB) :=
  let h1 := if map_has h type then h else map_set h type [] in
  map_replace h1 type
    (match map_get h1 type with Some l => l | None => [] end ++ [cb]).

(** [emit(type, data)]: the calls [cb(data)] it makes, in order. *)
Definition emit (h : list (string * list CB)) (type : string) (data : D)
  : list (CB * D) :=
  map (fun cb => (cb, data)) (match map_get h type with Some l => l | None => [] end).

End Bus.
End Bus.

(** ** Message framing of [MorphCrypto.encrypt] / [MorphCrypto.decrypt] *)

Module CryptoFraming.

Definition IV_LENGTH : nat := 12.

Section Framing.
Context {Key : Type}.
(** [crypto.subtle.encrypt] / [decrypt] with AES-GCM and the given IV;
    [None] when the promise rejects. *)
Variable aes_gcm_encrypt : Key -> list Byte.byte -> list Byte.byte -> option (list Byte.byte).
Variable aes_gcm_decrypt : Key -> list Byte.byte -> list Byte.byte -> option (list Byte.byte).
(** [new TextEncoder().encode(s)] and [new TextDecoder().decode(b)]. *)
Variable utf8_encode : string -> list Byte.byte.
Variable utf8_decode : list Byte.byte -> string.
(** [btoa(String.fromCharCode(...bytes))], and
    [Uint8Array.from(atob(s), c => c.charCodeAt(0))] ([None] when [atob]
    throws). *)
Variable to_base64 : list Byte.byte -> string.
Variable from_base64 : string -> option (list Byte.byte).

(** [encrypt(sharedKey, plaintext)]; [iv] is the [Uint8Array(IV_LENGTH)]
    filled by [crypto.getRandomValues]. The combined buffer is the IV
    followed by the ciphertext. *)
Definition encrypt (k : Key) (iv : list Byte.byte) (plaintext : string) : option string :=
  match aes_gcm_encrypt k iv (utf8_encode plaintext) with
  | Some ciphertext => Some (to_base64 (iv ++ ciphertext))
  | None => None
  end.

(** [decrypt(sharedKey, encryptedBase64)]: [slice(0, IV_LENGTH)] and
    [slice(IV_LENGTH)] of the decoded bytes. *)
Definition decrypt (k : Key) (encryptedBase64 : string) : option string :=
  match from_base64 encryptedBase64 with
  | None => None
  | Some combined =>
      let iv := firstn IV_LENGTH combined in
      let ciphertext := skipn IV_LENGTH combined in
      match aes_gcm_decrypt k iv ciphertext with
      | Some decrypted => Some (utf8_decode decrypted)
      | None => None
      end
  end.

End Framing.
End CryptoFraming.

(** ** The handshake of [MorphSignaling.connect] *)

Module SigConnect.

(** A value returned by [JSON.parse], as far as [ws.onmessage] reads it:
    [null], an object with its [type] and [peerId] fields (when they are
    strings), or any other value. *)
Inductive Json := JNull | JObject (type peerId : option string) | JOther.

(** The promise returned by [connect()]. *)
Inductive PromiseSt := Pending | Resolved (v : option string) | Rejected.

Definition resolve (v : option string) (p : PromiseSt) : PromiseSt :=
  match p with Pending => Resolved v | _ => p end.
Definition reject (p : PromiseSt) : PromiseSt :=
  match p with Pending => Rejected | _ => p end.

(** Events the handshake emits on the bus: [emit('ready', {peerId})] and
    [emit(msg.type, msg)] (with the raw text standing for [msg]). *)
Inductive Emitted := Ready (peerId : option string) | Forwarded (type : option string) (raw : string).

(** [myPeerId] is the module variable (it survives across [connect()]
    calls); [promise] is the promise of the current call. *)
Record CSt := mkC { myPeerId : option string; promise : PromiseSt; emitted : list Emitted }.

(** JS truthiness of [myPeerId] ([null], [undefined] and [''] are falsy). *)
Definition truthy (v : option string) : bool :=
  match v with Some s => negb (String.eqb s EmptyString) | None => false end.

Definition is_welcome_type (ty : option string) : bool :=
  match ty with Some t => String.eqb t "welcome"%string | None => false end.

Section Conn.
(** [JSON.parse]; [None] when it throws. *)
Variable parse : string -> option Json.

(** [ws.onmessage]. On [null], [msg.type] throws and the handler stops. *)
Definition onmessage (s : CSt) (raw : string) : CSt :=
  match parse raw with
  | None => s
  | Some JNull => s
  | Some JOther => mkC (myPeerId s) (promise s) (emitted s ++ [Forwarded None raw])
  | Some (JObject ty pid) =>
      if is_welcome_type ty
      then mkC pid (resolve pid (promise s)) (emitted s ++ [Ready pid])
      else mkC (myPeerId s) (promise s) (emitted s ++ [Forwarded ty raw])
  end.

(** The 10 s timer: [if (!myPeerId) reject(new Error('Connection timeout'))]. *)
Definition timeout (s : CSt) : CSt :=
  if truthy (myPeerId s) then s else mkC (myPeerId s) (reject (promise s)) (emitted s).

Inductive CEv := CMessage (raw : string) | CTimeout.

Definition cstep (s : CSt) (e : CEv) : CSt :=
  match e with CMessage raw => onmessage s raw | CTimeout => timeout s end.

Definition crun (s : CSt) (es : list CEv) : CSt := fold_left cstep es s.

(** The [peerId] a message would record, when it is a welcome. *)
Definition welcome_of (e : CEv) : option (option string) :=
  match e with
  | CMessage raw =>
      match parse raw with
      | Some (JObject ty pid) => if is_welcome_type ty then Some pid else None
      | _ => None
      end
  | CTimeout => None
  end.

Definition welcome_ids (es : list CEv) : list (option string) :=
  flat_map (fun e => match welcome_of e with Some pid => [pid] | None => [] end) es.

End Conn.
End SigConnect.

(** ** Input handling and rendering of [MorphApp] *)

(** Strings are Rocq strings of 8-bit characters: texts whose characters are
    in U+0000..U+00FF, for which a JS string's [length] is the number of
    characters. *)
Module App.
Local Open Scope string_scope.

(** The JS white space and line terminators in that range (used by
    [String.prototype.trim]). *)
Definition is_js_space (c : Ascii.ascii) : bool :=
  match Ascii.nat_of_ascii c with
  | 9 | 10 | 11 | 12 | 13 | 32 | 160 => true
  | _ => false
  end.

Fixpoint drop_space (l : list Ascii.ascii) : list Ascii.ascii :=
  match l with
  | [] => []
  | c :: l' => if is_js_space c then drop_space l' else l
  end.

(** [s.trim()]. *)
Definition trim (s : string) : string :=
  string_of_list_ascii (rev (drop_space (rev (drop_space (list_ascii_of_string s))))).

(** A string that neither starts nor ends with white space. *)
Definition trimmed (s : string) : bool :=
  match list_ascii_of_string s with
  | [] => true
  | c :: _ => negb (is_js_space c) && negb (is_js_space (last (list_ascii_of_string s) c))
  end.

(** A JS string as the sequence of its UTF-16 code units, the units
    [length] counts and [trim] inspects. *)
Definition js_string := list N.

(** The code units [String.prototype.trim] removes: WhiteSpace (TAB, VT,
    FF, SP, NBSP, ZWNBSP and the other space separators U+1680,
    U+2000..U+200A, U+202F, U+205F, U+3000) and LineTerminator (LF, CR,
    U+2028, U+2029). *)
Definition is_js_space16 (u : N) : bool :=
  existsb (N.eqb u) [9; 10; 11; 12; 13; 32; 160; 5760; 8232; 8233; 8239; 8287; 12288; 65279]%N
  || (N.leb 8192 u && N.leb u 8202).

Fixpoint drop_space16 (l : js_string) : js_string :=
  match l with
  | [] => []
  | u :: l' => if is_js_space16 u then drop_space16 l' else l
  end.

(** [s.trim()] on code units. *)
Definition trim16 (s : js_string) : js_string := rev (drop_space16 (rev (drop_space16 s))).

(** A code-unit string that neither starts nor ends with white space. *)
Definition trimmed16 (s : js_string) : bool :=
  match s with
  | [] => true
  | u :: _ => negb (is_js_space16 u) && negb (is_js_space16 (last s u))
  end.

(** [handleConnect()] up to [MorphSignaling.connect()]; [input] is
    [nameInput?.value] ([None] when the element is missing, and then
    [name] is [undefined]); [name.length] counts UTF-16 code units. *)
Inductive ConnectResult := WarnEnterName | WarnNameTooLong | StartConnect (myName : js_string).

Definition handleConnect (input : option js_string) : ConnectResult :=
  match option_map trim16 input with
  | None => WarnEnterName
  | Some [] => WarnEnterName
  | Some name =>
      if Nat.ltb 20 (List.length name) then WarnNameTooLong
      else StartConnect name
  end.

(** Requests sent to the signaling server. *)
Inductive Outgoing :=
  | OCreateRoom (name roomName roomType : string)
  | OJoinRoom (name pin : string)
  | OLeaveRoom.

(** [MorphSignaling.send(msg)]: only when [ws] is set and its [readyState]
    is OPEN; otherwise a console warning. *)
Definition sig_send (ws : option ReadyState) (out : list Outgoing) (m : Outgoing) : list Outgoing :=
  match ws with Some ROpen => (out ++ [m])%list | _ => out end.

Definition createRoom ws out (name roomName roomType : string) :=
  sig_send ws out (OCreateRoom name roomName roomType).
Definition joinRoom ws out (name pin : string) := sig_send ws out (OJoinRoom name pin).
Definition leaveRoom ws out := sig_send ws out OLeaveRoom.

(** [handleCreateRoom()]; [pendingRoomType] is the type last given to
    [showCreateModal]. *)
Definition handleCreateRoom (ws : option ReadyState) (out : list Outgoing)
    (myName pendingRoomType : string) (input : option string) : list Outgoing :=
  let dflt := if String.eqb pendingRoomType "dm" then "DM" else "MorphStorm Room" in
  let roomName :=
    match option_map trim input with
    | Some n => if String.eqb n "" then dflt else n
    | None => dflt
    end in
  createRoom ws out myName roomName pendingRoomType.


(** [escapeHtml(str)]: [div.textContent = str; return div.innerHTML], i.e.
    the HTML serialization of one text node, which writes [&], U+00A0, [<]
    and [>] as character references. *)
Definition escape_char (c : Ascii.ascii) : string :=
  if Ascii.eqb c "&"%char then "&amp;"
  else if Nat.eqb (Ascii.nat_of_ascii c) 160 then "&nbsp;"
  else if Ascii.eqb c "<"%char then "&lt;"
  else if Ascii.eqb c ">"%char then "&gt;"
  else String c EmptyString.

Fixpoint escapeHtml (s : string) : string :=
  match s with
  | EmptyString => EmptyString
  | String c s' => escape_char c ++ escapeHtml s'
  end.

Definition dq : string := String (Ascii.ascii_of_nat 34) EmptyString.
Definition nl : string := String (Ascii.ascii_of_nat 10) EmptyString.
Fixpoint spaces (n : nat) : string :=
  match n with 0 => EmptyString | S n' => String " "%char (spaces n') end.

(** What [renderMessage] renders: a system message, or a chat message with
    [timeStr = new Date(msg.time).toLocaleTimeString(...)]. *)
Inductive Rendered :=
  | RSystem (text : string)
  | RChat (from text timeStr : string) (isSelf : bool).

(** [renderMessage(msg)]: the [className] and the [innerHTML] it assigns. *)
Definition renderMessage (msg : Rendered) : string * string :=
  match msg with
  | RSystem text =>
      ("msg msg-system",
       "<span class=" ++ dq ++ "msg-sys-text" ++ dq ++ ">" ++ escapeHtml text ++ "</span>")
  | RChat from text timeStr isSelf =>
      ("msg " ++ (if isSelf then "msg-self" else "msg-peer"),
       nl ++ spaces 8 ++ "<div class=" ++ dq ++ "msg-header" ++ dq ++ ">" ++
       nl ++ spaces 10 ++ "<span class=" ++ dq ++ "msg-name" ++ dq ++ ">" ++
         escapeHtml from ++ "</span>" ++
       nl ++ spaces 10 ++ "<span class=" ++ dq ++ "msg-time" ++ dq ++ ">" ++
         timeStr ++ "</span>" ++
       nl ++ spaces 8 ++ "</div>" ++
       nl ++ spaces 8 ++ "<div class=" ++ dq ++ "msg-body" ++ dq ++ ">" ++
         escapeHtml text ++ "</div>" ++
       nl ++ spaces 6)
  end.

Fixpoint count_char (c : Ascii.ascii) (s : string) : nat :=
  match s with
  | EmptyString => 0
  | String c' s' => (if Ascii.eqb c c' then 1 else 0) + count_char c s'
  end.

End App.

(** ** Further concrete inputs *)

Module ExtraDemo.
Local Open Scope string_scope.

(** A [JSON.parse] for the handshake: "w" is a welcome with peerId "p1",
    "x" a message of another type, anything else fails to parse. *)
Definition parse_demo (raw : string) : option SigConnect.Json :=
  if String.eqb raw "w" then Some (SigConnect.JObject (Some "welcome") (Some "p1"))
  else if String.eqb raw "x" then Some (SigConnect.JObject (Some "chat") None)
  else None.

(** A stand-in cipher for the framing: AES-GCM reverses the bytes, UTF-8 and
    base64 are the byte view of a Rocq string. *)
Definition aes_enc_demo (k : nat) (iv pt : list Byte.byte) : option (list Byte.byte) := Some (rev pt).
Definition aes_dec_demo (k : nat) (iv ct : list Byte.byte) : option (list Byte.byte) := Some (rev ct).
Definition from_b64_demo (s : string) : option (list Byte.byte) := Some (String.list_byte_of_string s).
Definition iv_demo : list Byte.byte := repeat Byte.x00 12.

End ExtraDemo.

(** * Properties of the mesh manager *)

(** ** Heap and map lemmas *)

Lemma nth_upd_nth_same {A} (f : A -> A) n (l : list A) :
  nth_error (upd_nth f n l) n = option_map f (nth_error l n).
Proof. revert l; induction n; intros [|x l]; simpl; auto. Qed.

Lemma nth_upd_nth_other {A} (f : A -> A) n m (l : list A) :
  n <> m -> nth_error (upd_nth f n l) m = nth_error l m.
Proof.
  revert m l; induction n; intros m [|x l] Hne; simpl; auto.
  - destruct m; [congruence | reflexivity].
  - destruct m; simpl; auto.
Qed.

Lemma upd_nth_ext {A} (f g : A -> A) n (l : list A) :
  (forall x, f x = g x) -> upd_nth f n l = upd_nth g n l.
Proof.
  intros Hfg; revert l; induction n; intros [|x l]; simpl; auto.
  - rewrite Hfg; reflexivity.
  - rewrite IHn; reflexivity.
Qed.

Lemma upd_nth_compose {A} (f g : A -> A) n (l : list A) :
  upd_nth f n (upd_nth g n l) = upd_nth (fun x => f (g x)) n l.
Proof. revert l; induction n; intros [|x l]; simpl; auto; rewrite IHn; reflexivity. Qed.

Lemma upd_nth_id {A} (f : A -> A) n (l : list A) x :
  nth_error l n = Some x -> f x = x -> upd_nth f n l = l.
Proof.
  revert l; induction n; intros [|y l] Hn Hf; simpl in *; try discriminate.
  - inversion Hn; subst; rewrite Hf; reflexivity.
  - rewrite (IHn l Hn Hf); reflexivity.
Qed.

Lemma map_get_delete_same {V} (m : list (string * V)) k :
  map_get (map_delete m k) k = None.
Proof.
  induction m as [|[k' v] m IH]; simpl; auto.
  destruct (String.eqb k k') eqn:E; simpl; auto.
  rewrite E; exact IH.
Qed.

Lemma map_delete_absent {V} (m : list (string * V)) k :
  map_get m k = None -> map_delete m k = m.
Proof.
  induction m as [|[k' v] m IH]; simpl; auto.
  destruct (String.eqb k k') eqn:E; simpl; [discriminate|].
  intros H; rewrite (IH H); reflexivity.
Qed.

Lemma map_get_in {V} (m : list (string * V)) k v :
  NoDup (map fst m) -> In (k, v) m -> map_get m k = Some v.
Proof.
  induction m as [|[k' v'] m IH]; simpl; [tauto|].
  intros Hnd Hin; inversion Hnd as [|? ? Hnotin Hnd']; subst.
  destruct (String.eqb k k') eqn:E.
  - apply String.eqb_eq in E; subst.
    destruct Hin as [Heq | Hin]; [inversion Heq; reflexivity|].
    exfalso; apply Hnotin; apply (in_map fst _ _ Hin).
  - destruct Hin as [Heq | Hin].
    + inversion Heq; subst; rewrite String.eqb_refl in E; discriminate.
    + auto.
Qed.

(** ** More map and list lemmas *)

Lemma length_upd_nth {A} (f : A -> A) n (l : list A) :
  List.length (upd_nth f n l) = List.length l.
Proof. revert l; induction n; intros [|x l]; simpl; auto. Qed.

Lemma map_has_get {V} (m : list (string * V)) k :
  map_has m k = match map_get m k with Some _ => true | None => false end.
Proof.
  induction m as [|[k' v] m IH]; simpl; [reflexivity|].
  destruct (String.eqb k k'); auto.
Qed.

Lemma map_get_replace {V} (m : list (string * V)) k v k' :
  map_get (map_replace m k v) k' =
  if String.eqb k' k then match map_get m k with Some _ => Some v | None => None end
  else map_get m k'.
Proof.
  induction m as [|[k0 v0] m IH]; simpl.
  - destruct (String.eqb k' k); reflexivity.
  - destruct (String.eqb_spec k k0) as [E|Hne]; simpl.
    + subst k0; destruct (String.eqb k' k); reflexivity.
    + rewrite IH.
      destruct (String.eqb_spec k' k) as [E1|Hne1];
        destruct (String.eqb_spec k' k0) as [E2|Hne2]; subst; try congruence;
        reflexivity.
Qed.

Lemma map_get_snoc {V} (m : list (string * V)) k v k' :
  map_get (m ++ [(k, v)]) k' =
  match map_get m k' with
  | Some x => Some x
  | None => if String.eqb k' k then Some v else None
  end.
Proof.
  induction m as [|[k0 v0] m IH]; simpl; [reflexivity|].
  destruct (String.eqb k' k0); auto.
Qed.

Lemma keys_replace {V} (m : list (string * V)) k v :
  map fst (map_replace m k v) = map fst m.
Proof.
  induction m as [|[k0 v0] m IH]; simpl; auto.
  destruct (String.eqb k k0); simpl; f_equal; auto.
Qed.

Lemma map_get_notin {V} (m : list (string * V)) k :
  ~ In k (map fst m) -> map_get m k = None.
Proof.
  induction m as [|[k0 v0] m IH]; simpl; auto.
  destruct (String.eqb_spec k k0); [subst; tauto|]; auto.
Qed.

Lemma map_get_none_notin {V} (m : list (string * V)) k :
  map_get m k = None -> ~ In k (map fst m).
Proof.
  induction m as [|[k0 v0] m IH]; simpl; auto.
  destruct (String.eqb_spec k k0); [discriminate|].
  intros H [E|Hin]; [congruence|exact (IH H Hin)].
Qed.

Lemma nodup_snoc {A} (l : list A) x : NoDup l -> ~ In x l -> NoDup (l ++ [x]).
Proof.
  induction l as [|y l IH]; simpl; intros Hnd Hn.
  - constructor; [intros []|constructor].
  - inversion Hnd; subst; constructor.
    + rewrite in_app_iff; simpl; intros [H|[H|[]]]; [tauto|].
      apply Hn; left; auto.
    + apply IH; auto.
Qed.

Lemma keys_set_nodup {V} (m : list (string * V)) k v :
  NoDup (map fst m) -> NoDup (map fst (map_set m k v)).
Proof.
  unfold map_set; rewrite map_has_get; intros H.
  destruct (map_get m k) eqn:E.
  - rewrite keys_replace; exact H.
  - rewrite map_app; simpl; apply nodup_snoc; auto.
    apply map_get_none_notin; exact E.
Qed.

Lemma forall_set {V} (P : V -> Prop) (m : list (string * V)) k v :
  Forall (fun e => P (snd e)) m -> P v -> Forall (fun e => P (snd e)) (map_set m k v).
Proof.
  unfold map_set; intros Hm Hv; destruct (map_has m k).
  - induction m as [|[k0 v0] m IH]; simpl; [constructor|].
    inversion Hm; subst.
    destruct (String.eqb k k0); constructor; auto.
  - apply Forall_app; split; auto.
Qed.

Lemma keys_delete {V} (m : list (string * V)) k :
  map fst (map_delete m k) = filter (fun x => negb (String.eqb k x)) (map fst m).
Proof.
  unfold map_delete.
  induction m as [|[k0 v0] m IH]; simpl; auto.
  destruct (String.eqb k k0); simpl; rewrite IH; reflexivity.
Qed.

Lemma forall_delete {V} (P : string * V -> Prop) (m : list (string * V)) k :
  Forall P m -> Forall P (map_delete m k).
Proof.
  intros H; apply Forall_forall; intros x Hx.
  unfold map_delete in Hx; apply filter_In in Hx.
  exact (proj1 (Forall_forall P m) H x (proj1 Hx)).
Qed.

(** ** Subsequences and suffixes *)

Lemma subseq_nil_l {A} (l : list A) : subseq [] l.
Proof. induction l; constructor; assumption. Qed.

Lemma subseq_refl {A} (l : list A) : subseq l l.
Proof. induction l; constructor; assumption. Qed.

Lemma subseq_trans {A} (l1 l2 l3 : list A) : subseq l1 l2 -> subseq l2 l3 -> subseq l1 l3.
Proof.
  intros H12 H23; revert l1 H12; induction H23 as [|x l2 l3 H IH|x l2 l3 H IH]; intros l1 H12.
  - exact H12.
  - inversion H12; subst; constructor; auto.
  - constructor; auto.
Qed.

Lemma subseq_app_l {A} (pre l1 l2 : list A) : subseq l1 l2 -> subseq (pre ++ l1) (pre ++ l2).
Proof. induction pre; simpl; intros; [assumption|constructor; auto]. Qed.

Lemma skipn_length_app {A} (w x : list A) : skipn (List.length w) (w ++ x) = x.
Proof. induction w; simpl; auto. Qed.

Lemma skipn_length_self {A} (w : list A) : skipn (List.length w) w = [].
Proof. induction w; simpl; auto. Qed.

Section MeshProps.
#[local] Set Default Proof Using "Type".

Context {Key PubKey Cipher Msg Candidate : Type}.
Variable myPublicKeyJwk : PubKey.
Variable completeKeyExchange : PubKey -> option Key.
Variable encrypt : Key -> Msg -> option Cipher.
Variable dc_send_ok : string -> Cipher -> bool.
Variable decrypt : Key -> Cipher -> option Msg.
Variable addIceCandidate_ok : Candidate -> bool.

Local Abbreviation St := (@St Key PubKey Cipher Msg).
Local Abbreviation Peer := (@Peer Key Msg).

Lemma lookup_upd_peer (s : St) l f id :
  lookup (upd_peer l f s) id =
  match lookup s id with
  | Some (l', p) => Some (l', if Nat.eqb l l' then f p else p)
  | None => None
  end.
Proof.
  unfold lookup, upd_peer; simpl.
  destruct (map_get (peers s) id) as [l'|]; auto.
  destruct (Nat.eqb l l') eqn:E.
  - apply Nat.eqb_eq in E; subst.
    rewrite nth_upd_nth_same; destruct (nth_error (heap s) l'); simpl; try rewrite Nat.eqb_refl; reflexivity.
  - apply Nat.eqb_neq in E.
    rewrite nth_upd_nth_other by exact E.
    apply Nat.eqb_neq in E.
    destruct (nth_error (heap s) l'); try rewrite E; reflexivity.
Qed.

Lemma lookup_some_get (s : St) id l p :
  lookup s id = Some (l, p) -> map_get (peers s) id = Some l /\ nth_error (heap s) l = Some p.
Proof.
  unfold lookup; destruct (map_get (peers s) id); [|discriminate].
  destruct (nth_error (heap s) n) eqn:E; intros H; inversion H; subst; auto.
Qed.

Lemma lookup_absent (s : St) id :
  map_get (peers s) id = None -> lookup s id = None.
Proof. unfold lookup; intros ->; reflexivity. Qed.


(** ** [sendToPeer] *)

(** C10: a session that already has a shared key but whose data channel is
    not open: [sendToPeer] resolves to [false], and the message is neither
    transmitted nor queued (only a warning is printed). *)
Theorem sendToPeer_keyed_channel_not_open (s : St) id l p k m :
  lookup s id = Some (l, p) -> sharedKey p = Some k -> dataChannel p <> Some ROpen ->
  snd (sendToPeer encrypt dc_send_ok s id m) = false /\
  wire (fst (sendToPeer encrypt dc_send_ok s id m)) = wire s /\
  heap (fst (sendToPeer encrypt dc_send_ok s id m)) = heap s /\
  peers (fst (sendToPeer encrypt dc_send_ok s id m)) = peers s /\
  events (fst (sendToPeer encrypt dc_send_ok s id m)) = events s.
Proof.
  intros Hl Hk Hdc; unfold sendToPeer; rewrite Hl, Hk.
  destruct (dataChannel p) as [[]|]; try (exfalso; apply Hdc; reflexivity);
    simpl; repeat split.
Qed.

(** C2 (amended): the outcome of [sendToPeer] is decided by the presence of
    the session, then by the shared key, then by the channel's readyState,
    never by the [state] field: absent id -> [false], nothing changes; no
    shared key (whatever the state, 'connecting' included) -> the message is
    appended to [pendingMessages] and the result is [true]; a key but a
    channel that is not open -> [false], nothing queued or sent; a key and an
    open channel -> the message is encrypted and handed to the channel's
    [send]: [true] with the frame transmitted when both succeed, [false]
    with the error logged and nothing sent when encryption fails or [send]
    throws. While the encryption is awaited other events may run: the frame
    then goes to the channel the object holds when the encryption completes,
    and the result is [true] exactly when that channel is still open and
    accepts the frame. *)
Theorem sendToPeer_outcomes (s : St) id m :
  (map_get (peers s) id = None -> sendToPeer encrypt dc_send_ok s id m = (s, false)) /\
  (forall l p, lookup s id = Some (l, p) -> sharedKey p = None ->
     snd (sendToPeer encrypt dc_send_ok s id m) = true /\
     lookup (fst (sendToPeer encrypt dc_send_ok s id m)) id = Some (l, set_pending (pendingMessages p ++ [m]) p) /\
     peers (fst (sendToPeer encrypt dc_send_ok s id m)) = peers s /\
     wire (fst (sendToPeer encrypt dc_send_ok s id m)) = wire s /\
     events (fst (sendToPeer encrypt dc_send_ok s id m)) = events s) /\
  (forall l p k, lookup s id = Some (l, p) -> sharedKey p = Some k ->
     dataChannel p <> Some ROpen ->
     sendToPeer encrypt dc_send_ok s id m = (log (LogChannelNotOpen id) s, false)) /\
  (forall l p k, lookup s id = Some (l, p) -> sharedKey p = Some k ->
     dataChannel p = Some ROpen ->
     (forall c, encrypt k m = Some c -> dc_send_ok id c = true ->
        sendToPeer encrypt dc_send_ok s id m = (transmit id (FData c) s, true)) /\
     (forall c, encrypt k m = Some c -> dc_send_ok id c = false ->
        sendToPeer encrypt dc_send_ok s id m = (log (LogSendError id) s, false)) /\
     (encrypt k m = None ->
        sendToPeer encrypt dc_send_ok s id m = (log (LogSendError id) s, false)) /\
     send_start s id m = (s, SEnc l k) /\
     (forall s' : St,
        (snd (send_finish encrypt dc_send_ok s' id l k m) = true <->
         (exists c, encrypt k m = Some c /\
                    option_map dataChannel (nth_error (heap s') l) = Some (Some ROpen) /\
                    dc_send_ok id c = true)) /\
        (forall c, snd (send_finish encrypt dc_send_ok s' id l k m) = true -> encrypt k m = Some c ->
           fst (send_finish encrypt dc_send_ok s' id l k m) = transmit id (FData c) s') /\
        (snd (send_finish encrypt dc_send_ok s' id l k m) = false ->
           fst (send_finish encrypt dc_send_ok s' id l k m) = log (LogSendError id) s'))).
Proof.
  split; [|split; [|split]].
  - intros H; unfold sendToPeer; rewrite (lookup_absent s id H); reflexivity.
  - intros l p Hl Hk; unfold sendToPeer; rewrite Hl, Hk; simpl.
    rewrite lookup_upd_peer, Hl, Nat.eqb_refl; repeat split.
  - intros l p k Hl Hk Hdc; unfold sendToPeer; rewrite Hl, Hk.
    destruct (dataChannel p) as [[]|]; try reflexivity; exfalso; apply Hdc; reflexivity.
  - intros l p k Hl Hk Hdc; split; [|split; [|split; [|split]]].
    + intros c He Ho; unfold sendToPeer; rewrite Hl, Hk, Hdc, He, Ho; reflexivity.
    + intros c He Ho; unfold sendToPeer; rewrite Hl, Hk, Hdc, He, Ho; reflexivity.
    + intros He; unfold sendToPeer; rewrite Hl, Hk, Hdc, He; reflexivity.
    + unfold send_start; rewrite Hl, Hk, Hdc; reflexivity.
    + intros s'; unfold send_finish.
      destruct (encrypt k m) as [c|];
        [|split; [split; [discriminate|intros (c & E & _); discriminate E]
                 |split; [intros c _ E; discriminate E|reflexivity]]].
      destruct (option_map dataChannel (nth_error (heap s') l)) as [[[]|]|] eqn:Hd;
        try (split; [split; [discriminate|intros (c' & E & D & _); inversion E; subst; discriminate D]
                    |split; [intros c' T; discriminate T|reflexivity]]).
      destruct (dc_send_ok id c) eqn:Ho; simpl.
      * split; [split; [intros _; exists c; auto|reflexivity]|split; [|discriminate]].
        intros c' _ E; inversion E; subst; reflexivity.
      * split; [split; [discriminate|intros (c' & E & _ & O); inversion E; subst; congruence]
               |split; [discriminate|reflexivity]].
Qed.

(** ** Handlers do not read the console log *)

Definition oblivious (F : St -> St) : Prop := forall s, strip (F s) = strip (F (strip s)).

Lemma oblivious_congr F s1 s2 :
  oblivious F -> strip s1 = strip s2 -> strip (F s1) = strip (F s2).
Proof.
  intros HF H; rewrite (HF s1), (HF s2), H; reflexivity.
Qed.

Lemma strip_send id m : oblivious (fun s => fst (sendToPeer encrypt dc_send_ok s id m)).
Proof.
  intros s; unfold sendToPeer; change (lookup (strip s) id) with (lookup s id).
  destruct (lookup s id) as [[l p]|]; [|reflexivity].
  destruct (sharedKey p) as [k|]; [|reflexivity].
  destruct (dataChannel p) as [[]|]; try reflexivity.
  destruct (encrypt k m) as [c|]; [destruct (dc_send_ok id c)|]; reflexivity.
Qed.

Lemma strip_flush id ms : oblivious (fun s => flush encrypt dc_send_ok s id ms).
Proof.
  induction ms as [|m ms IH]; intros s; [reflexivity|]; simpl.
  apply (oblivious_congr _ _ _ IH).
  apply (strip_send id m).
Qed.

Lemma strip_kx_resume t : oblivious (fun s => kx_resume completeKeyExchange encrypt dc_send_ok s t).
Proof.
  intros s; unfold kx_resume.
  change (nth_error (heap (strip s)) (kx_loc t)) with (nth_error (heap s) (kx_loc t)).
  destruct (nth_error (heap s) (kx_loc t)) as [p|]; [|reflexivity].
  destruct (completeKeyExchange (kx_pk t)) as [k|]; [|reflexivity].
  match goal with
  | |- strip (upd_peer ?l ?h (flush _ _ ?A ?i ?q)) = strip (upd_peer _ _ (flush _ _ ?B _ _)) =>
      change (strip (upd_peer l h (flush encrypt dc_send_ok A i q)))
        with (upd_peer l h (strip (flush encrypt dc_send_ok A i q)));
      change (strip (upd_peer l h (flush encrypt dc_send_ok B i q)))
        with (upd_peer l h (strip (flush encrypt dc_send_ok B i q)));
      rewrite (oblivious_congr _ A B (strip_flush i q)); [reflexivity|reflexivity]
  end.
Qed.

Lemma strip_handle_kx id pk : oblivious (fun s => handle_kx completeKeyExchange encrypt dc_send_ok s id pk).
Proof.
  intros s; unfold handle_kx.
  change (@kx_start Key PubKey Cipher Msg (strip s) id pk) with (@kx_start Key PubKey Cipher Msg s id pk).
  destruct (@kx_start Key PubKey Cipher Msg s id pk) as [t|]; [apply strip_kx_resume | reflexivity].
Qed.

Lemma strip_onmessage id f : oblivious (fun s => onmessage completeKeyExchange encrypt dc_send_ok decrypt addIceCandidate_ok s id f).
Proof.
  intros s; unfold onmessage.
  change (lookup (strip s) id) with (lookup s id).
  destruct (lookup s id) as [[l p]|]; [|reflexivity].
  destruct f as [pk|c].
  - apply strip_handle_kx.
  - destruct (sharedKey p) as [k|]; [|reflexivity].
    destruct (decrypt k c); reflexivity.
Qed.

Lemma strip_on_messages id fs s1 s2 :
  strip s1 = strip s2 -> strip (on_messages completeKeyExchange encrypt dc_send_ok decrypt addIceCandidate_ok s1 id fs) = strip (on_messages completeKeyExchange encrypt dc_send_ok decrypt addIceCandidate_ok s2 id fs).
Proof.
  revert s1 s2; induction fs as [|f fs IH]; intros s1 s2 H; [exact H|].
  apply IH; apply (oblivious_congr _ _ _ (strip_onmessage id f) H).
Qed.

(** ** Incoming frames *)

(** C8: an application frame that fails to decrypt on a session with a
    shared key is dropped and logged: the session table, the peer objects,
    the events and the wire are unchanged (no teardown, no disconnect
    event), and every later frame is processed exactly as if the bad frame
    had never arrived. *)
Theorem onmessage_decrypt_failure (s : St) id l p k c :
  lookup s id = Some (l, p) -> sharedKey p = Some k -> decrypt k c = None ->
  onmessage completeKeyExchange encrypt dc_send_ok decrypt addIceCandidate_ok s id (FData c) = log (LogDecodeError id) s /\
  (forall fs, strip (on_messages completeKeyExchange encrypt dc_send_ok decrypt addIceCandidate_ok s id (FData c :: fs)) = strip (on_messages completeKeyExchange encrypt dc_send_ok decrypt addIceCandidate_ok s id fs)).
Proof.
  intros Hl Hk Hd.
  assert (E : onmessage completeKeyExchange encrypt dc_send_ok decrypt addIceCandidate_ok s id (FData c) = log (LogDecodeError id) s).
  { unfold onmessage; rewrite Hl, Hk, Hd; reflexivity. }
  split; [exact E|].
  intros fs; unfold on_messages; simpl.
  fold (on_messages completeKeyExchange encrypt dc_send_ok decrypt addIceCandidate_ok (onmessage completeKeyExchange encrypt dc_send_ok decrypt addIceCandidate_ok s id (FData c)) id fs).
  fold (on_messages completeKeyExchange encrypt dc_send_ok decrypt addIceCandidate_ok s id fs).
  apply strip_on_messages; rewrite E; reflexivity.
Qed.

(** ** Stale ids, teardown *)

Lemma lookup_emit (s : St) e id : lookup (emit e s) id = lookup s id.
Proof. reflexivity. Qed.

Lemma lookup_transmit (s : St) i f id : lookup (transmit i f s) id = lookup s id.
Proof. reflexivity. Qed.

Lemma lookup_log (s : St) e id : lookup (log e s) id = lookup s id.
Proof. reflexivity. Qed.

Lemma flush_absent (s : St) id ms :
  map_get (peers s) id = None -> flush encrypt dc_send_ok s id ms = s.
Proof.
  revert s; induction ms as [|m ms IH]; intros s H; [reflexivity|]; simpl.
  unfold sendToPeer at 1; rewrite (lookup_absent s id H); simpl; auto.
Qed.

Lemma getPeerList_upd_unref (s : St) l f :
  ~ In l (map snd (peers s)) -> getPeerList (upd_peer l f s) = getPeerList s.
Proof.
  unfold getPeerList, upd_peer; simpl.
  generalize (peers s) as ps; induction ps as [|[i l'] ps IH]; intros Hn; [reflexivity|].
  simpl in *; rewrite nth_upd_nth_other by (intros E; apply Hn; left; symmetry; exact E).
  rewrite IH by (intros E; apply Hn; right; exact E); reflexivity.
Qed.


Lemma teardown_absent (s : St) id ts :
  map_get (peers s) id = None -> fold_left (fun s t => on_teardown s id t) ts s = s.
Proof.
  revert s; induction ts as [|t ts IH]; intros s H; [reflexivity|]; simpl.
  assert (E : on_teardown s id t = s).
  { unfold handlePeerDisconnect; destruct t as [[]| |]; simpl;
      unfold handlePeerDisconnect, disconnectPeer, handlePeerDisconnect;
      try rewrite (lookup_absent s id H); reflexivity. }
  rewrite E; apply IH; exact H.
Qed.

(** C5: whatever reports arrive for a present session (ICE 'disconnected' /
    'failed' / 'closed', the channel's close, an explicit disconnect, in any
    number and order, with at least one terminal among them), the session is
    removed from the table once and exactly one [peer-disconnected] event
    is emitted; reports after the first terminal one emit nothing. *)
Theorem teardown_single_disconnect (s : St) id l p ts :
  lookup s id = Some (l, p) -> existsb terminal ts = true ->
  map_get (peers (fold_left (fun s t => on_teardown s id t) ts s)) id = None /\
  peers (fold_left (fun s t => on_teardown s id t) ts s) = map_delete (peers s) id /\
  events (fold_left (fun s t => on_teardown s id t) ts s) =
    events s ++ [PeerDisconnected id (name p)].
Proof.
  revert s; induction ts as [|t ts IH]; intros s Hl Hex; [discriminate|]; simpl.
  simpl in Hex; destruct (terminal t) eqn:Ht.
  - assert (E : on_teardown s id t =
                emit (PeerDisconnected id (name p))
                  (with_peers (map_delete (peers s) id) (upd_peer l close_connection s))).
    { destruct t as [[]| |]; simpl in Ht; try discriminate; simpl;
        unfold disconnectPeer, handlePeerDisconnect; rewrite Hl; reflexivity. }
    rewrite E, teardown_absent by (simpl; apply map_get_delete_same).
    simpl; repeat split; apply map_get_delete_same.
  - assert (E : on_teardown s id t = s).
    { destruct t as [[]| |]; simpl in Ht; try discriminate; reflexivity. }
    rewrite E; apply IH; assumption.
Qed.

Lemma hpd_absent (s : St) id :
  map_get (peers s) id = None -> handlePeerDisconnect s id = s.
Proof. intros H; unfold handlePeerDisconnect; rewrite (lookup_absent s id H); reflexivity. Qed.

(** C6: [disconnectPeer] is a no-op for an absent id and idempotent;
    [disconnectAll] is idempotent, changes nothing on an empty table, and
    leaves an empty roster whatever the prior state. *)
Theorem disconnect_idempotent (s : St) id :
  (map_get (peers s) id = None -> disconnectPeer s id = s) /\
  disconnectPeer (disconnectPeer s id) id = disconnectPeer s id /\
  disconnectAll (disconnectAll s) = disconnectAll s /\
  (peers s = [] -> disconnectAll s = s) /\
  getPeerList (disconnectAll s) = [].
Proof.
  split; [|split; [|split; [|split]]].
  - intros H; unfold disconnectPeer, handlePeerDisconnect; rewrite (lookup_absent s id H); reflexivity.
  - unfold disconnectPeer.
    assert (D : map_get (peers (handlePeerDisconnect s id)) id = None \/
                handlePeerDisconnect s id = s).
    { unfold handlePeerDisconnect; destruct (lookup s id) as [[l p]|];
        [left; simpl; apply map_get_delete_same | right; reflexivity]. }
    destruct D as [D|D].
    + rewrite (hpd_absent (handlePeerDisconnect s id) id D); reflexivity.
    + rewrite D; exact D.
  - unfold disconnectAll at 1; simpl; reflexivity.
  - intros H; unfold disconnectAll; rewrite H; destruct s; simpl in *; subst; reflexivity.
  - reflexivity.
Qed.

(** ** Queue and flush *)

Lemma lookup_same_tables (s s' : St) id :
  peers s' = peers s -> heap s' = heap s -> lookup s' id = lookup s id.
Proof. intros Hp Hh; unfold lookup; rewrite Hp, Hh; reflexivity. Qed.

Lemma send_all_unkeyed (s : St) id l p ms :
  lookup s id = Some (l, p) -> sharedKey p = None ->
  send_all encrypt dc_send_ok s id ms = upd_peer l (fun q => set_pending (pendingMessages q ++ ms) q) s.
Proof.
  revert s p; induction ms as [|m ms IH]; intros s p Hl Hk; simpl.
  - destruct (lookup_some_get s id l p Hl) as [_ Hn].
    unfold upd_peer; rewrite (upd_nth_id _ l (heap s) p Hn)
      by (destruct p; simpl; rewrite app_nil_r; reflexivity).
    destruct s; reflexivity.
  - unfold sendToPeer at 1; rewrite Hl, Hk; simpl.
    rewrite (IH _ (set_pending (pendingMessages p ++ [m]) p)).
    + unfold upd_peer; simpl; rewrite upd_nth_compose.
      erewrite upd_nth_ext; [reflexivity|].
      intros q; destruct q; simpl; rewrite <- app_assoc; reflexivity.
    + rewrite lookup_upd_peer, Hl, Nat.eqb_refl; reflexivity.
    + exact Hk.
Qed.

Lemma peers_upd_peer (s : St) l f : peers (upd_peer l f s) = peers s.
Proof. reflexivity. Qed.

Lemma events_upd_peer (s : St) l f : events (upd_peer l f s) = events s.
Proof. reflexivity. Qed.

Lemma wire_upd_peer (s : St) l f : wire (upd_peer l f s) = wire s.
Proof. reflexivity. Qed.

(** The loop of the key exchange run without interruption, on a session
    that holds a key: the tables and the events stay, and the frames of some
    of the messages go out in order, those whose encryption and send
    succeed; none when the channel is not open. *)
Lemma flush_keyed_frames ms : forall (s : St) id l p k,
  lookup s id = Some (l, p) -> sharedKey p = Some k ->
  peers (flush encrypt dc_send_ok s id ms) = peers s /\
  heap (flush encrypt dc_send_ok s id ms) = heap s /\
  events (flush encrypt dc_send_ok s id ms) = events s /\
  exists ps,
    subseq (map fst ps) ms /\
    Forall (fun mc => encrypt k (fst mc) = Some (snd mc) /\ dc_send_ok id (snd mc) = true) ps /\
    wire (flush encrypt dc_send_ok s id ms) = wire s ++ map (fun mc => (id, FData (snd mc))) ps /\
    (dataChannel p <> Some ROpen -> ps = []) /\
    (dataChannel p = Some ROpen ->
       (forall m, In m ms -> exists c, encrypt k m = Some c /\ dc_send_ok id c = true) ->
       map fst ps = ms).
Proof.
  induction ms as [|m ms IH]; intros s id l p k Hl Hk.
  - split; [reflexivity|split; [reflexivity|split; [reflexivity|]]].
    exists []; simpl; rewrite app_nil_r.
    split; [constructor|split; [constructor|split; [reflexivity|split; intros; reflexivity]]].
  - assert (Hrec : forall s1 : St, peers s1 = peers s -> heap s1 = heap s -> events s1 = events s ->
        peers (flush encrypt dc_send_ok s1 id ms) = peers s /\
        heap (flush encrypt dc_send_ok s1 id ms) = heap s /\
        events (flush encrypt dc_send_ok s1 id ms) = events s /\
        exists ps, subseq (map fst ps) ms /\
          Forall (fun mc => encrypt k (fst mc) = Some (snd mc) /\ dc_send_ok id (snd mc) = true) ps /\
          wire (flush encrypt dc_send_ok s1 id ms) = wire s1 ++ map (fun mc => (id, FData (snd mc))) ps /\
          (dataChannel p <> Some ROpen -> ps = []) /\
          (dataChannel p = Some ROpen ->
             (forall m, In m ms -> exists c, encrypt k m = Some c /\ dc_send_ok id c = true) ->
             map fst ps = ms)).
    { intros s1 Hp Hh He.
      destruct (IH s1 id l p k) as (P & H & E & R);
        [rewrite (lookup_same_tables s s1 id Hp Hh); exact Hl | exact Hk |].
      split; [congruence|split; [congruence|split; [congruence|exact R]]]. }
    cbn [flush]; unfold sendToPeer; rewrite Hl, Hk.
    destruct (dataChannel p) as [[]|] eqn:Hd.
    2: {
      destruct (encrypt k m) as [c|] eqn:He.
      * destruct (dc_send_ok id c) eqn:Ho; simpl.
        -- destruct (Hrec (transmit id (FData c) s) eq_refl eq_refl eq_refl)
             as (P & H & E & ps & Sub & F & W & N & A).
           split; [exact P|split; [exact H|split; [exact E|]]].
           exists ((m, c) :: ps); split; [constructor; exact Sub|].
           split; [constructor; [split; assumption|exact F]|].
           split; [rewrite W; simpl; rewrite <- app_assoc; reflexivity|].
           split; [intros X; exfalso; apply X; reflexivity|].
           intros _ Hall; simpl; f_equal; apply A; [reflexivity|].
           intros m' Hm'; apply Hall; right; exact Hm'.
        -- destruct (Hrec (log (LogSendError id) s) eq_refl eq_refl eq_refl)
             as (P & H & E & ps & Sub & F & W & N & A).
           split; [exact P|split; [exact H|split; [exact E|]]].
           exists ps; split; [constructor; exact Sub|].
           split; [exact F|split; [exact W|]].
           split; [intros X; exfalso; apply X; reflexivity|].
           intros _ Hall; destruct (Hall m (or_introl eq_refl)) as (c' & E' & O').
           rewrite He in E'; inversion E'; subst; congruence.
      * simpl.
        destruct (Hrec (log (LogSendError id) s) eq_refl eq_refl eq_refl)
          as (P & H & E & ps & Sub & F & W & N & A).
        split; [exact P|split; [exact H|split; [exact E|]]].
        exists ps; split; [constructor; exact Sub|].
        split; [exact F|split; [exact W|]].
        split; [intros X; exfalso; apply X; reflexivity|].
        intros _ Hall; destruct (Hall m (or_introl eq_refl)) as (c' & E' & _); congruence. }
    all: simpl; destruct (Hrec (log (LogChannelNotOpen id) s) eq_refl eq_refl eq_refl)
             as (P & H & E & ps & Sub & F & W & N & A);
           split; [exact P|split; [exact H|split; [exact E|]]];
           exists ps; split; [constructor; exact Sub|];
           split; [exact F|split; [exact W|]];
           split; [exact N|intros X; discriminate X].
Qed.

(** ** Suspended activations *)

Local Abbreviation Task := (@Task Key PubKey Cipher Msg).
Local Abbreviation Cfg := (@Cfg Key PubKey Cipher Msg).

Lemma take_task_perm n (ts : list (nat * Task)) t rest :
  take_task n ts = Some (t, rest) -> Permutation ts ((n, t) :: rest).
Proof.
  revert rest; induction ts as [|[n' t'] ts IH]; intros rest; simpl; [discriminate|].
  destruct (Nat.eqb_spec n n') as [->|Hne].
  - intros E; inversion E; subst; reflexivity.
  - destruct (take_task n ts) as [[t2 rest2]|] eqn:T; [|discriminate].
    intros E; inversion E; subst.
    rewrite (IH rest2 eq_refl); apply perm_swap.
Qed.

Lemma take_task_tags n (ts : list (nat * Task)) t rest :
  take_task n ts = Some (t, rest) -> Permutation (map fst ts) (n :: map fst rest).
Proof. intros T; exact (Permutation_map fst (take_task_perm n ts t rest T)). Qed.

Lemma take_task_in n (ts : list (nat * Task)) t :
  NoDup (map fst ts) -> In (n, t) ts -> exists rest, take_task n ts = Some (t, rest).
Proof.
  induction ts as [|[n' t'] ts IH]; simpl; intros Hnd Hin; [contradiction|].
  inversion Hnd as [|? ? Hn Hnd']; subst.
  destruct (Nat.eqb_spec n n') as [->|Hne].
  - destruct Hin as [E|Hin]; [inversion E; subst; eexists; reflexivity|].
    exfalso; apply Hn; apply (in_map fst _ _ Hin).
  - destruct Hin as [E|Hin]; [inversion E; congruence|].
    destruct (IH Hnd' Hin) as [rest T]; rewrite T; eexists; reflexivity.
Qed.

Lemma take_task_notin n (ts : list (nat * Task)) :
  ~ In n (map fst ts) -> take_task n ts = None.
Proof.
  induction ts as [|[n' t'] ts IH]; simpl; intros H; [reflexivity|].
  destruct (Nat.eqb_spec n n'); [exfalso; apply H; left; congruence|].
  rewrite IH; [reflexivity|intros X; apply H; right; exact X].
Qed.

Lemma astep_tags (c : Cfg) e x :
  In x (map fst (pool (astep myPublicKeyJwk completeKeyExchange encrypt dc_send_ok decrypt addIceCandidate_ok c e))) ->
  In x (map fst (pool c)) \/ x = fresh c.
Proof.
  assert (Sp : forall s t, In x (map fst (pool (spawn c s t))) -> In x (map fst (pool c)) \/ x = fresh c).
  { intros s [t|]; simpl; [|auto].
    rewrite map_app, in_app_iff; simpl; intuition. }
  destruct e as [o|i m|f pk|i f|n]; simpl.
  - auto.
  - destruct (send_call (cst c) i m) as [s t]; apply Sp.
  - apply Sp.
  - destruct (onmessage_call (cst c) i f) as [s t]; apply Sp.
  - destruct (take_task n (pool c)) as [[t rest]|] eqn:T; [|auto].
    pose proof (take_task_tags n (pool c) t rest T) as P.
    assert (Hr : forall y, In y (n :: map fst rest) -> In y (map fst (pool c)))
      by (intros y Hy; exact (Permutation_in _ (Permutation_sym P) Hy)).
    destruct (resume completeKeyExchange encrypt dc_send_ok decrypt (cst c) t) as [s [t'|]]; simpl.
    + rewrite map_app, in_app_iff; simpl; intros [H|[H|H]]; [|subst|contradiction];
        left; apply Hr; simpl; auto.
    + intros H; left; apply Hr; right; exact H.
Qed.

Lemma astep_fresh (c : Cfg) e :
  fresh c <= fresh (astep myPublicKeyJwk completeKeyExchange encrypt dc_send_ok decrypt addIceCandidate_ok c e).
Proof.
  assert (Sp : forall s t, fresh c <= fresh (spawn c s t)) by (intros s [t|]; simpl; lia).
  destruct e as [o|i m|f pk|i f|n]; simpl.
  - lia.
  - destruct (send_call (cst c) i m) as [s t]; apply Sp.
  - apply Sp.
  - destruct (onmessage_call (cst c) i f) as [s t]; apply Sp.
  - destruct (take_task n (pool c)) as [[t rest]|]; [|lia].
    destruct (resume completeKeyExchange encrypt dc_send_ok decrypt (cst c) t) as [s t']; simpl; lia.
Qed.

Lemma tags_ok_astep (c : Cfg) e :
  tags_ok c -> tags_ok (astep myPublicKeyJwk completeKeyExchange encrypt dc_send_ok decrypt addIceCandidate_ok c e).
Proof.
  intros [Hnd Hlt]; unfold tags_ok.
  assert (Sp : forall s t, NoDup (map fst (pool (spawn c s t))) /\
                 Forall (fun e => fst e < fresh (spawn c s t)) (pool (spawn c s t))).
  { intros s [t|]; simpl; [|split; assumption].
    split.
    - rewrite map_app; apply nodup_snoc; [exact Hnd|].
      intros Hin; apply in_map_iff in Hin as ([x tx] & Ex & Hx); simpl in Ex; subst.
      rewrite Forall_forall in Hlt; specialize (Hlt _ Hx); simpl in Hlt; lia.
    - apply Forall_app; split; [|constructor; [simpl; lia|constructor]].
      eapply Forall_impl; [|exact Hlt]; intros [] ?; simpl in *; lia. }
  destruct e as [o|i m|f pk|i f|n]; simpl.
  - split; assumption.
  - destruct (send_call (cst c) i m) as [s t]; apply Sp.
  - apply Sp.
  - destruct (onmessage_call (cst c) i f) as [s t]; apply Sp.
  - destruct (take_task n (pool c)) as [[t rest]|] eqn:T; [|split; assumption].
    pose proof (take_task_perm _ _ _ _ T) as P.
    pose proof (Permutation_NoDup (Permutation_map fst P) Hnd) as ND; simpl in ND.
    inversion ND as [|? ? Hn ND']; subst.
    assert (Hr : Forall (fun e => fst e < fresh c) rest).
    { rewrite Forall_forall in *; intros x Hx; apply Hlt.
      apply (Permutation_in _ (Permutation_sym P)); right; exact Hx. }
    assert (Hnl : n < fresh c).
    { rewrite Forall_forall in Hlt; apply (Hlt (n, t)).
      apply (Permutation_in _ (Permutation_sym P)); left; reflexivity. }
    destruct (resume completeKeyExchange encrypt dc_send_ok decrypt (cst c) t) as [s [t'|]]; simpl;
      split; auto.
    + rewrite map_app; apply nodup_snoc; auto.
    + apply Forall_app; split; auto.
Qed.

(** A tag that is no longer in the pool is never used again. *)
Lemma sent_by_gone es : forall (c : Cfg) n,
  ~ In n (map fst (pool c)) -> n < fresh c ->
  sent_by myPublicKeyJwk completeKeyExchange encrypt dc_send_ok decrypt addIceCandidate_ok n c es = [].
Proof.
  induction es as [|e es IH]; intros c n Hn Hlt; [reflexivity|].
  cbn [sent_by].
  rewrite (IH _ n).
  - rewrite app_nil_r; destruct e as [| | | |n']; try reflexivity.
    destruct (Nat.eqb_spec n n'); [subst|reflexivity].
    unfold astep; rewrite (take_task_notin _ _ Hn); apply skipn_length_self.
  - intros Hin; destruct (astep_tags c e n Hin) as [H|H]; [exact (Hn H)|lia].
  - pose proof (astep_fresh c e); lia.
Qed.

Lemma astep_other (c : Cfg) e n :
  (forall n', e = AResume n' -> n' <> n) ->
  forall t, In (n, t) (pool c) ->
  In (n, t) (pool (astep myPublicKeyJwk completeKeyExchange encrypt dc_send_ok decrypt addIceCandidate_ok c e)).
Proof.
  intros Hne t Hin.
  assert (Sp : forall s t', In (n, t) (pool (spawn c s t'))).
  { intros s [t'|]; simpl; [apply in_or_app; left|]; exact Hin. }
  destruct e as [o|i m|f pk|i f|n']; simpl.
  - exact Hin.
  - destruct (send_call (cst c) i m) as [s t']; apply Sp.
  - apply Sp.
  - destruct (onmessage_call (cst c) i f) as [s t']; apply Sp.
  - destruct (take_task n' (pool c)) as [[t0 rest]|] eqn:T; [|exact Hin].
    pose proof (Permutation_in _ (take_task_perm _ _ _ _ T) Hin) as [E|Hr].
    + inversion E; subst; exfalso; exact (Hne n eq_refl eq_refl).
    + destruct (resume completeKeyExchange encrypt dc_send_ok decrypt (cst c) t0) as [s [t'|]]; simpl;
        [apply in_or_app; left|]; exact Hr.
Qed.

Lemma send_start_wire (s : St) id m : wire (fst (send_start s id m)) = wire s.
Proof.
  unfold send_start; destruct (lookup s id) as [[l p]|]; [|reflexivity].
  destruct (sharedKey p); [destruct (dataChannel p) as [[]|]|]; reflexivity.
Qed.

Lemma send_finish_wire (s : St) id l k m :
  wire (fst (send_finish encrypt dc_send_ok s id l k m)) = wire s \/
  exists c, encrypt k m = Some c /\
    wire (fst (send_finish encrypt dc_send_ok s id l k m)) = wire s ++ [(id, FData c)].
Proof.
  unfold send_finish; destruct (encrypt k m) as [c|]; [|left; reflexivity].
  destruct (option_map dataChannel (nth_error (heap s) l)) as [[[]|]|]; try (left; reflexivity).
  destruct (dc_send_ok id c); [right; exists c; split; reflexivity|left; reflexivity].
Qed.

(** One resumption of a task that sends to [id]: it transmits the frames of
    some of the messages it had still to send, in order, and what remains
    is a subsequence of the rest. *)
Lemma resume_msgs (s : St) t id ms :
  task_msgs t = Some (id, ms) ->
  exists pre ms0,
    wire (fst (resume completeKeyExchange encrypt dc_send_ok decrypt s t)) =
      wire s ++ map (fun mc => (id, FData (snd mc))) pre /\
    Forall (fun mc => exists k, encrypt k (fst mc) = Some (snd mc)) pre /\
    match snd (resume completeKeyExchange encrypt dc_send_ok decrypt s t) with
    | None => ms0 = []
    | Some t' => task_msgs t' = Some (id, ms0)
    end /\
    subseq (map fst pre ++ ms0) ms.
Proof.
  destruct t as [kt|id' l ms'|id' l sl k m ms'|id' sl k m|id' l k c]; simpl; intros H;
    inversion H; subst id' ms; clear H.
  - destruct ms' as [|m ms'].
    + exists [], []; simpl; rewrite app_nil_r.
      repeat split; constructor.
    + unfold flush_enter.
      pose proof (send_start_wire s id m) as Ws.
      destruct (send_start s id m) as [s1 [b|sl k]]; simpl in *.
      * exists [], ms'; rewrite app_nil_r; repeat split; try constructor; try assumption.
        apply subseq_refl.
      * exists [], (m :: ms'); rewrite app_nil_r; repeat split; try constructor; try assumption.
        apply subseq_refl.
  - destruct (send_finish_wire s id sl k m) as [W|(c & E & W)].
    + exists [], ms'; simpl; rewrite app_nil_r; repeat split; try constructor; try assumption.
      apply subseq_refl.
    + exists [(m, c)], ms'; simpl; repeat split; try assumption.
      * constructor; [exists k; exact E|constructor].
      * constructor; apply subseq_refl.
  - destruct (send_finish_wire s id sl k m) as [W|(c & E & W)].
    + exists [], []; simpl; rewrite app_nil_r; repeat split; try constructor; try assumption.
      apply subseq_nil_l.
    + exists [(m, c)], []; simpl; repeat split; try assumption.
      * constructor; [exists k; exact E|constructor].
      * constructor; constructor.
  - exists [], []; simpl; rewrite app_nil_r.
    destruct (nth_error (heap s) l); [destruct (decrypt k c)|]; simpl;
      repeat split; constructor.
Qed.

(** Over any schedule, a task that sends to [id] transmits the frames of a
    subsequence of the messages it had still to send, and nothing else. *)
Lemma sent_by_task es : forall (c : Cfg) n t id ms,
  tags_ok c -> In (n, t) (pool c) -> task_msgs t = Some (id, ms) ->
  exists ps, subseq (map fst ps) ms /\
    Forall (fun mc => exists k, encrypt k (fst mc) = Some (snd mc)) ps /\
    sent_by myPublicKeyJwk completeKeyExchange encrypt dc_send_ok decrypt addIceCandidate_ok n c es =
      map (fun mc => (id, FData (snd mc))) ps.
Proof.
  induction es as [|e es IH]; intros c n t id ms Hok Hin Ht.
  - exists []; split; [apply subseq_nil_l|split; [constructor|reflexivity]].
  - cbn [sent_by].
    pose proof (tags_ok_astep c e Hok) as Hok'.
    destruct (match e with AResume n' => Nat.eqb n n' | _ => false end) eqn:En.
    + destruct e as [| | | |n']; try discriminate.
      apply Nat.eqb_eq in En; subst n'; rewrite Nat.eqb_refl.
      destruct Hok as [Hnd Hlt].
      destruct (take_task_in n (pool c) t Hnd Hin) as [rest T].
      destruct (resume_msgs (cst c) t id ms Ht) as (pre & ms0 & W & F & K & Sub).
      assert (A : astep myPublicKeyJwk completeKeyExchange encrypt dc_send_ok decrypt addIceCandidate_ok c (AResume n) =
                  mkCfg (fst (resume completeKeyExchange encrypt dc_send_ok decrypt (cst c) t))
                    (match snd (resume completeKeyExchange encrypt dc_send_ok decrypt (cst c) t) with
                     | Some t' => rest ++ [(n, t')] | None => rest end) (fresh c))
        by (unfold astep; rewrite T; destruct (resume completeKeyExchange encrypt dc_send_ok decrypt (cst c) t); reflexivity).
      rewrite A in Hok' |- *; cbn [cst]; rewrite W, skipn_length_app.
      destruct (snd (resume completeKeyExchange encrypt dc_send_ok decrypt (cst c) t)) as [t'|].
      * destruct (IH _ n t' id ms0 Hok') as (ps & S1 & F1 & E1);
          [simpl; apply in_or_app; right; left; reflexivity|exact K|].
        exists (pre ++ ps); split; [|split].
        -- rewrite map_app; eapply subseq_trans; [apply subseq_app_l; exact S1|exact Sub].
        -- apply Forall_app; split; assumption.
        -- rewrite E1, map_app; reflexivity.
      * subst ms0.
        rewrite sent_by_gone.
        -- exists pre; rewrite app_nil_r in Sub |- *; split; [exact Sub|split; [exact F|reflexivity]].
        -- simpl; pose proof (take_task_perm _ _ _ _ T) as P.
           pose proof (Permutation_NoDup (Permutation_map fst P) Hnd) as ND; simpl in ND.
           inversion ND; assumption.
        -- simpl; rewrite Forall_forall in Hlt; exact (Hlt (n, t) Hin).
    + assert (Z : (match e with
                   | AResume n' =>
                       if Nat.eqb n n' then
                         skipn (List.length (wire (cst c)))
                           (wire (cst (astep myPublicKeyJwk completeKeyExchange encrypt dc_send_ok decrypt addIceCandidate_ok c e)))
                       else []
                   | _ => []
                   end) = []) by (destruct e; try reflexivity; rewrite En; reflexivity).
      rewrite Z; simpl.
      apply (IH _ n t id ms Hok'); [|exact Ht].
      apply astep_other; [|exact Hin].
      intros n' -> <-; rewrite Nat.eqb_refl in En; discriminate.
Qed.

Lemma send_start_keyed_loc (s : St) id m l q :
  nth_error (heap s) l = Some q -> sharedKey q <> None ->
  nth_error (heap (fst (send_start s id m))) l = Some q /\
  peers (fst (send_start s id m)) = peers s /\
  events (fst (send_start s id m)) = events s.
Proof.
  intros Hq Hk; unfold send_start.
  destruct (lookup s id) as [[l2 p2]|] eqn:L; [|simpl; auto].
  destruct (sharedKey p2) eqn:K2.
  - destruct (dataChannel p2) as [[]|]; simpl; auto.
  - simpl; destruct (Nat.eq_dec l2 l) as [->|Hne].
    + destruct (lookup_some_get _ _ _ _ L) as [_ Hn]; rewrite Hn in Hq.
      inversion Hq; subst; congruence.
    + rewrite nth_upd_nth_other by congruence; auto.
Qed.

(** The resumption of a derivation that succeeds: it writes the key into the
    object it holds, emits [peer-encrypted], and enters its loop over the
    queue as it is at that moment. *)
Lemma resume_derive (s : St) id l pk p k :
  nth_error (heap s) l = Some p -> completeKeyExchange pk = Some k ->
  nth_error (heap (fst (resume completeKeyExchange encrypt dc_send_ok decrypt s (TDerive (mkKx id l pk))))) l =
    Some (set_state Encrypted (set_sharedKey (Some k) p)) /\
  peers (fst (resume completeKeyExchange encrypt dc_send_ok decrypt s (TDerive (mkKx id l pk)))) = peers s /\
  events (fst (resume completeKeyExchange encrypt dc_send_ok decrypt s (TDerive (mkKx id l pk)))) =
    events s ++ [PeerEncrypted id (name p)] /\
  wire (fst (resume completeKeyExchange encrypt dc_send_ok decrypt s (TDerive (mkKx id l pk)))) = wire s /\
  match snd (resume completeKeyExchange encrypt dc_send_ok decrypt s (TDerive (mkKx id l pk))) with
  | None => pendingMessages p = []
  | Some t' => exists ms0, task_msgs t' = Some (id, ms0) /\ subseq ms0 (pendingMessages p)
  end.
Proof.
  intros Hn Hk; cbn [resume kx_id kx_loc kx_pk]; rewrite Hn, Hk.
  set (s2 := emit (PeerEncrypted id (name p))
               (upd_peer l (fun q => set_state Encrypted (set_sharedKey (Some k) q)) s)).
  assert (H2 : nth_error (heap s2) l = Some (set_state Encrypted (set_sharedKey (Some k) p)))
    by (unfold s2; simpl; rewrite nth_upd_nth_same, Hn; reflexivity).
  unfold flush_enter; destruct (pendingMessages p) as [|m ms] eqn:Hq.
  - cbn [fst snd]; unfold upd_peer at 1; cbn [heap peers events wire].
    rewrite nth_upd_nth_same, H2; simpl.
    split; [destruct p; simpl in *; subst; reflexivity|].
    repeat split.
  - destruct (send_start_keyed_loc s2 id m l _ H2) as (Hl' & Hp' & He'); [simpl; discriminate|].
    pose proof (send_start_wire s2 id m) as Hw.
    destruct (send_start s2 id m) as [s3 [b|sl k']]; simpl in *;
      (split; [exact Hl'|split; [rewrite Hp'; reflexivity|split; [rewrite He'; reflexivity|split; [rewrite Hw; reflexivity|]]]]).
    + exists ms; split; [reflexivity|constructor; apply subseq_refl].
    + exists (m :: ms); split; [reflexivity|apply subseq_refl].
Qed.

(** Over any schedule, a derivation that completes writes the key, emits
    [peer-encrypted], and then its loop transmits the frames of a
    subsequence of the queue it found, and nothing else. *)
Lemma sent_by_derive es (c : Cfg) n id l pk p k :
  tags_ok c -> In (n, TDerive (mkKx id l pk)) (pool c) ->
  nth_error (heap (cst c)) l = Some p -> completeKeyExchange pk = Some k ->
  nth_error (heap (cst (astep myPublicKeyJwk completeKeyExchange encrypt dc_send_ok decrypt addIceCandidate_ok c (AResume n)))) l =
    Some (set_state Encrypted (set_sharedKey (Some k) p)) /\
  peers (cst (astep myPublicKeyJwk completeKeyExchange encrypt dc_send_ok decrypt addIceCandidate_ok c (AResume n))) = peers (cst c) /\
  events (cst (astep myPublicKeyJwk completeKeyExchange encrypt dc_send_ok decrypt addIceCandidate_ok c (AResume n))) =
    events (cst c) ++ [PeerEncrypted id (name p)] /\
  wire (cst (astep myPublicKeyJwk completeKeyExchange encrypt dc_send_ok decrypt addIceCandidate_ok c (AResume n))) = wire (cst c) /\
  exists ps, subseq (map fst ps) (pendingMessages p) /\
    Forall (fun mc => exists k', encrypt k' (fst mc) = Some (snd mc)) ps /\
    sent_by myPublicKeyJwk completeKeyExchange encrypt dc_send_ok decrypt addIceCandidate_ok n c (AResume n :: es) =
      map (fun mc => (id, FData (snd mc))) ps.
Proof.
  intros Hok Hin Hn Hk.
  pose proof (tags_ok_astep c (AResume n) Hok) as Hok'.
  destruct Hok as [Hnd Hlt].
  destruct (take_task_in n (pool c) _ Hnd Hin) as [rest T].
  pose proof (resume_derive (cst c) id l pk p k Hn Hk) as (R1 & R2 & R3 & R4 & R5).
  set (r := resume completeKeyExchange encrypt dc_send_ok decrypt (cst c) (TDerive (mkKx id l pk))) in *.
  assert (A : astep myPublicKeyJwk completeKeyExchange encrypt dc_send_ok decrypt addIceCandidate_ok c (AResume n) =
              mkCfg (fst r) (match snd r with Some t' => rest ++ [(n, t')] | None => rest end) (fresh c))
    by (unfold astep; rewrite T; unfold r; destruct (resume completeKeyExchange encrypt dc_send_ok decrypt (cst c) (TDerive (mkKx id l pk))); reflexivity).
  rewrite A in Hok' |- *; cbn [cst].
  split; [exact R1|split; [exact R2|split; [exact R3|split; [exact R4|]]]].
  cbn [sent_by]; rewrite Nat.eqb_refl, A; cbn [cst]; rewrite R4, skipn_length_self; simpl.
  destruct (snd r) as [t'|].
  - destruct R5 as (ms0 & Tm & Sub).
    destruct (sent_by_task es _ n t' id ms0 Hok') as (ps & S1 & F & E);
      [simpl; apply in_or_app; right; left; reflexivity|exact Tm|].
    exists ps; split; [eapply subseq_trans; eassumption|split; assumption].
  - exists []; split; [apply subseq_nil_l|split; [constructor|]].
    apply sent_by_gone.
    + simpl; pose proof (take_task_perm _ _ _ _ T) as P.
      pose proof (Permutation_NoDup (Permutation_map fst P) Hnd) as ND; simpl in ND.
      inversion ND; assumption.
    + simpl; rewrite Forall_forall in Hlt; exact (Hlt _ Hin).
Qed.



(** ** Broadcast *)

Lemma send_step (s : St) id l m :
  map_get (peers s) id = Some l ->
  snd (sendToPeer encrypt dc_send_ok s id m) = send_result encrypt dc_send_ok id (nth_error (heap s) l) m /\
  wire (fst (sendToPeer encrypt dc_send_ok s id m)) = wire s ++ @send_frames Key PubKey Cipher Msg encrypt dc_send_ok id (nth_error (heap s) l) m /\
  peers (fst (sendToPeer encrypt dc_send_ok s id m)) = peers s /\
  events (fst (sendToPeer encrypt dc_send_ok s id m)) = events s /\
  (forall l', l' <> l -> nth_error (heap (fst (sendToPeer encrypt dc_send_ok s id m))) l' = nth_error (heap s) l') /\
  (forall p, nth_error (heap s) l = Some p -> sharedKey p = None ->
     nth_error (heap (fst (sendToPeer encrypt dc_send_ok s id m))) l = Some (set_pending (pendingMessages p ++ [m]) p)).
Proof.
  intros Hg; unfold sendToPeer, lookup; rewrite Hg.
  destruct (nth_error (heap s) l) as [p|] eqn:Hn.
  - destruct (sharedKey p) as [k|] eqn:Hk.
    + unfold send_result, send_frames; rewrite Hk.
      destruct (dataChannel p) as [[]|]; simpl; try (rewrite app_nil_r);
        try (destruct (encrypt k m) as [c|]; [destruct (dc_send_ok id c)|]); simpl;
        try rewrite app_nil_r; repeat split; intros; congruence.
    + unfold send_result, send_frames; rewrite Hk; simpl.
      rewrite app_nil_r; repeat split.
      * intros l' Hne; apply nth_upd_nth_other; congruence.
      * intros q Hq _; rewrite nth_upd_nth_same, Hn; simpl in *; congruence.
  - simpl; rewrite app_nil_r; repeat split; intros; congruence.
Qed.

Lemma broadcast_loop_spec (m : Msg) : forall es (s0 : St),
  (forall id l, In (id, l) es -> map_get (peers s0) id = Some l) ->
  NoDup (map snd es) ->
  snd (broadcast_loop encrypt dc_send_ok s0 (map fst es) m) =
    map (fun e => send_result encrypt dc_send_ok (fst e) (nth_error (heap s0) (snd e)) m) es /\
  wire (fst (broadcast_loop encrypt dc_send_ok s0 (map fst es) m)) =
    wire s0 ++ flat_map (fun e => @send_frames Key PubKey Cipher Msg encrypt dc_send_ok (fst e) (nth_error (heap s0) (snd e)) m) es /\
  peers (fst (broadcast_loop encrypt dc_send_ok s0 (map fst es) m)) = peers s0 /\
  events (fst (broadcast_loop encrypt dc_send_ok s0 (map fst es) m)) = events s0 /\
  (forall l, ~ In l (map snd es) ->
     nth_error (heap (fst (broadcast_loop encrypt dc_send_ok s0 (map fst es) m))) l = nth_error (heap s0) l) /\
  (forall id l p, In (id, l) es -> nth_error (heap s0) l = Some p -> sharedKey p = None ->
     nth_error (heap (fst (broadcast_loop encrypt dc_send_ok s0 (map fst es) m))) l =
       Some (set_pending (pendingMessages p ++ [m]) p)).
Proof.
  induction es as [|[id l] es IH]; intros s0 Hin Hnd.
  - simpl; rewrite app_nil_r; repeat split; intros; contradiction.
  - simpl in Hnd; inversion Hnd as [|? ? Hl_notin Hnd']; subst.
    assert (Hg : map_get (peers s0) id = Some l) by (apply Hin; left; reflexivity).
    destruct (send_step s0 id l m Hg) as (Hr & Hw & Hp & He & Ho & Hq).
    cbn [map fst snd broadcast_loop].
    destruct (sendToPeer encrypt dc_send_ok s0 id m) as [s1 r] eqn:Hs; simpl in Hr, Hw, Hp, He, Ho, Hq.
    assert (Hin1 : forall id' l', In (id', l') es -> map_get (peers s1) id' = Some l')
      by (intros; rewrite Hp; apply Hin; right; assumption).
    destruct (IH s1 Hin1 Hnd') as (Ir & Iw & Ip & Ie & Io & Iq).
    assert (Hsame : forall e, In e es -> nth_error (heap s1) (snd e) = nth_error (heap s0) (snd e)).
    { intros [i' l'] Hie; apply Ho; simpl; intros ->; apply Hl_notin.
      apply (in_map snd _ _ Hie). }
    destruct (broadcast_loop encrypt dc_send_ok s1 (map fst es) m) as [s2 rs] eqn:Hb; simpl in *.
    repeat split.
    + rewrite Hr, Ir; f_equal; apply map_ext_in; intros e Hie; rewrite Hsame by exact Hie; reflexivity.
    + rewrite Iw, Hw, <- app_assoc; f_equal; f_equal.
      rewrite !flat_map_concat_map; f_equal; apply map_ext_in; intros e Hie.
      rewrite Hsame by exact Hie; reflexivity.
    + rewrite Ip, Hp; reflexivity.
    + rewrite Ie, He; reflexivity.
    + intros l' Hl'; rewrite Io by (intros H; apply Hl'; right; exact H).
      apply Ho; intros ->; apply Hl'; left; reflexivity.
    + intros i' l' p [Heq | Hie] Hn Hk.
      * inversion Heq; subst; rewrite Io by exact Hl_notin; apply Hq; assumption.
      * apply Iq with (id := i'); [exact Hie| |exact Hk].
        rewrite <- Hn; apply (Hsame (i', l') Hie).
Qed.

Lemma frames_count_results (s : St) m es :
  List.length (flat_map (fun e => @send_frames Key PubKey Cipher Msg encrypt dc_send_ok (fst e) (nth_error (heap s) (snd e)) m) es) =
  List.length (filter (fun e => keyed (nth_error (heap s) (snd e)) &&
                                send_result encrypt dc_send_ok (fst e) (nth_error (heap s) (snd e)) m) es).
Proof.
  induction es as [|e es IH]; [reflexivity|]; simpl.
  rewrite length_app, IH.
  unfold send_frames, send_result, keyed.
  destruct (nth_error (heap s) (snd e)) as [p|]; [|reflexivity].
  destruct (sharedKey p) as [k|]; [|reflexivity].
  destruct (dataChannel p) as [[]|]; try reflexivity.
  destruct (encrypt k m) as [c|]; [|reflexivity].
  destruct (dc_send_ok (fst e) c); reflexivity.
Qed.

Lemma frames_count (s : St) m es :
  (forall e p k, In e es -> nth_error (heap s) (snd e) = Some p -> sharedKey p = Some k ->
     dataChannel p = Some ROpen /\ exists c, encrypt k m = Some c /\ dc_send_ok (fst e) c = true) ->
  List.length (flat_map (fun e => @send_frames Key PubKey Cipher Msg encrypt dc_send_ok (fst e) (nth_error (heap s) (snd e)) m) es) =
  List.length (filter (fun e => keyed (nth_error (heap s) (snd e))) es).
Proof.
  induction es as [|e es IH]; intros H; [reflexivity|]; simpl.
  rewrite length_app, IH by (intros; eapply H; [right|..]; eassumption).
  unfold send_frames, keyed.
  destruct (nth_error (heap s) (snd e)) as [p|] eqn:Hn; [|reflexivity].
  destruct (sharedKey p) as [k|] eqn:Hk; [|reflexivity].
  destruct (H e p k (or_introl eq_refl) Hn Hk) as [Hdc (c & He & Ho)].
  rewrite Hdc, He, Ho; reflexivity.
Qed.

(** C4 (amended): [broadcast] calls [sendToPeer] for every entry of the
    table in its order and returns one result per entry; no outcome stops
    the loop. An entry without a shared key gets the message appended to its
    queue (result [true]); nothing in [broadcast] sends it later, that is
    left to the key exchange of the session, whose loop may drop it. An
    entry with a key and an open channel gets it encrypted and passed to
    [dc.send]: result [true] and one frame when both succeed, [false] and no
    frame when the encryption fails or [send] throws. An entry with a key
    whose channel is not open gets [false] and the message is dropped. The
    frames transmitted are exactly one per keyed entry whose result is
    [true]; so when every keyed entry has an open channel and its
    encryption and send succeed, exactly as many frames are transmitted as
    there are keyed entries. *)
Theorem broadcast_outcomes (s : St) m :
  NoDup (map fst (peers s)) -> NoDup (map snd (peers s)) ->
  snd (broadcast encrypt dc_send_ok s m) = map (fun e => send_result encrypt dc_send_ok (fst e) (nth_error (heap s) (snd e)) m) (peers s) /\
  List.length (snd (broadcast encrypt dc_send_ok s m)) = List.length (peers s) /\
  wire (fst (broadcast encrypt dc_send_ok s m)) =
    wire s ++ flat_map (fun e => @send_frames Key PubKey Cipher Msg encrypt dc_send_ok (fst e) (nth_error (heap s) (snd e)) m) (peers s) /\
  peers (fst (broadcast encrypt dc_send_ok s m)) = peers s /\
  events (fst (broadcast encrypt dc_send_ok s m)) = events s /\
  (forall id l p, In (id, l) (peers s) -> nth_error (heap s) l = Some p -> sharedKey p = None ->
     nth_error (heap (fst (broadcast encrypt dc_send_ok s m))) l = Some (set_pending (pendingMessages p ++ [m]) p)) /\
  List.length (wire (fst (broadcast encrypt dc_send_ok s m))) =
    List.length (wire s) +
    List.length (filter (fun e => keyed (nth_error (heap s) (snd e)) &&
                                  send_result encrypt dc_send_ok (fst e) (nth_error (heap s) (snd e)) m) (peers s)) /\
  ((forall e p k, In e (peers s) -> nth_error (heap s) (snd e) = Some p -> sharedKey p = Some k ->
      dataChannel p = Some ROpen /\ exists c, encrypt k m = Some c /\ dc_send_ok (fst e) c = true) ->
   List.length (wire (fst (broadcast encrypt dc_send_ok s m))) =
     List.length (wire s) + List.length (filter (fun e => keyed (nth_error (heap s) (snd e))) (peers s))).
Proof.
  intros Hk Hl.
  assert (Hin : forall id l, In (id, l) (peers s) -> map_get (peers s) id = Some l)
    by (intros; apply map_get_in; assumption).
  destruct (broadcast_loop_spec m (peers s) s Hin Hl) as (Ir & Iw & Ip & Ie & _ & Iq).
  unfold broadcast.
  repeat split; try assumption.
  - rewrite Ir, length_map; reflexivity.
  - rewrite Iw, length_app, frames_count_results; reflexivity.
  - intros H; rewrite Iw, length_app, frames_count by exact H; reflexivity.
Qed.
End MeshProps.

(** * Properties of the reconnection logic *)

Module SignalingFacts.
Import Signaling.

Lemma step_wf s lb s' : wf s -> step s lb = Some s' -> wf s'.
Proof.
  unfold wf, MAX_RECONNECT; intros [Ht Ha] H; destruct lb; simpl in H.
  - destruct (timerPending s); inversion H; subst; simpl; split; [discriminate|lia].
  - destruct (ws s) eqn:Hw; inversion H; subst; simpl; split; [|lia].
    intros E; specialize (Ht E); congruence.
  - destruct (ws_live (ws s)) eqn:Hw; inversion H; subst; simpl; split; auto.
  - destruct (ws_live (ws s)) eqn:Hw; inversion H; subst.
    unfold onclose, attemptReconnect, MAX_RECONNECT; cbn [reconnectAttempts].
    destruct (5 <=? reconnectAttempts s) eqn:E; simpl; split; auto.
    apply Nat.leb_gt in E; lia.
Qed.

Lemma step_timers s lb s' :
  wf s -> step s lb = Some s' -> lb <> LOpen ->
  exists added, timers s' = timers s ++ added /\
                Forall (fun d => d = RECONNECT_DELAY) added /\
                reconnectAttempts s' = reconnectAttempts s + List.length added.
Proof.
  intros _ H Hno; destruct lb; simpl in H; try (exfalso; apply Hno; reflexivity).
  - destruct (timerPending s); inversion H; subst.
    exists []; simpl; rewrite app_nil_r; repeat split; auto; lia.
  - destruct (ws_live (ws s)); inversion H; subst.
    exists []; simpl; rewrite app_nil_r; repeat split; auto; lia.
  - destruct (ws_live (ws s)); inversion H; subst.
    unfold onclose, attemptReconnect; cbn [reconnectAttempts].
    destruct (MAX_RECONNECT <=? reconnectAttempts s); simpl.
    + exists []; rewrite app_nil_r; repeat split; auto; lia.
    + exists [RECONNECT_DELAY]; repeat split; auto; simpl; lia.
Qed.

Lemma run_timers : forall ls s s',
  wf s -> run s ls = Some s' -> ~ In LOpen ls ->
  exists added, timers s' = timers s ++ added /\
                Forall (fun d => d = RECONNECT_DELAY) added /\
                reconnectAttempts s' = reconnectAttempts s + List.length added /\
                wf s'.
Proof.
  induction ls as [|lb ls IH]; intros s s' Hwf Hrun Hno; simpl in Hrun.
  - inversion Hrun; subst; exists []; rewrite app_nil_r.
    split; [reflexivity|split; [constructor|split; [simpl; lia|exact Hwf]]].
  - destruct (step s lb) as [s1|] eqn:Hs; [|discriminate].
    assert (Hlb : lb <> LOpen) by (intros ->; apply Hno; left; reflexivity).
    destruct (step_timers s lb s1 Hwf Hs Hlb) as (a1 & T1 & F1 & A1).
    destruct (IH s1 s' (step_wf s lb s1 Hwf Hs) Hrun
                (fun H => Hno (or_intror H))) as (a2 & T2 & F2 & A2 & W2).
    exists (a1 ++ a2); rewrite T2, T1, app_assoc, length_app.
    split; [reflexivity|split; [apply Forall_app; auto|split; [lia|exact W2]]].
Qed.

(** C7: after the signaling socket is lost, automatic reconnection (runs
    of timer expiries, socket errors and closes, with no successful open in
    between) schedules at most [MAX_RECONNECT] = 5 attempts in total, each
    after the fixed [RECONNECT_DELAY]; once the counter has reached the
    bound, the next close of the socket emits the 'failed' status and leaves
    a state from which no automatic event is possible, so no reconnection is
    ever scheduled again. *)
Theorem reconnect_bounded s :
  wf s ->
  (forall ls s', run s ls = Some s' -> ~ In LOpen ls ->
     exists added, timers s' = timers s ++ added /\
                   Forall (fun d => d = RECONNECT_DELAY) added /\
                   reconnectAttempts s + List.length added <= MAX_RECONNECT) /\
  (MAX_RECONNECT <= reconnectAttempts s ->
   forall s', step s LClose = Some s' ->
     statuses s' = statuses s ++ [StDisconnected; StFailed] /\
     timers s' = timers s /\
     (forall lb, step s' lb = None)).
Proof.
  intros Hwf; split.
  - intros ls s' Hrun Hno.
    destruct (run_timers ls s s' Hwf Hrun Hno) as (a & T & F & A & [_ W]).
    exists a; repeat split; auto; lia.
  - intros Hmax s' H; destruct Hwf as [Ht _]; simpl in H.
    destruct (ws_live (ws s)) eqn:Hw; [|discriminate]; inversion H; subst.
    assert (Tf : timerPending s = false).
    { destruct (timerPending s) eqn:E; auto; rewrite (Ht eq_refl) in Hw; discriminate. }
    unfold onclose, attemptReconnect; cbn [reconnectAttempts].
    apply Nat.leb_le in Hmax; rewrite Hmax; simpl.
    rewrite <- app_assoc; repeat split.
    intros []; simpl; rewrite ?Tf; reflexivity.
Qed.

End SignalingFacts.

(** * Further properties of the mesh manager *)

Module AppLemmas.
Import App.
Local Open Scope string_scope.

Lemma drop_space_head l :
  match drop_space l with [] => True | c :: _ => is_js_space c = false end.
Proof.
  induction l as [|c l IH]; simpl; auto.
  destruct (is_js_space c) eqn:E; simpl; auto.
Qed.

Lemma drop_space_suffix l : exists pre, l = (pre ++ drop_space l)%list.
Proof.
  induction l as [|c l [pre IH]]; simpl; [exists []; reflexivity|].
  destruct (is_js_space c).
  - exists (c :: pre); simpl; f_equal; exact IH.
  - exists []; reflexivity.
Qed.

Lemma trim_list s :
  list_ascii_of_string (trim s) =
  rev (drop_space (rev (drop_space (list_ascii_of_string s)))).
Proof. unfold trim; apply list_ascii_of_string_of_list_ascii. Qed.

Lemma trim_trimmed s : trimmed (trim s) = true.
Proof.
  unfold trimmed; rewrite trim_list.
  set (d1 := drop_space (list_ascii_of_string s)).
  pose proof (drop_space_head (list_ascii_of_string s)) as H1; fold d1 in H1.
  destruct (drop_space_suffix (rev d1)) as [pre Hpre].
  pose proof (drop_space_head (rev d1)) as H2.
  set (d2 := drop_space (rev d1)) in *.
  destruct d2 as [|c2 t2] eqn:Ed2; [reflexivity|].
  destruct d1 as [|c1 t1] eqn:Ed1.
  - simpl in Hpre; destruct pre; discriminate.
  - assert (Hr : (rev (c2 :: t2) ++ rev pre)%list = c1 :: t1).
    { rewrite <- rev_app_distr, <- Hpre, rev_involutive; reflexivity. }
    destruct (rev (c2 :: t2)) as [|x y] eqn:Erev.
    + simpl in Erev; destruct (rev t2); discriminate.
    + simpl in Hr; inversion Hr; subst x.
      rewrite <- Erev; simpl; rewrite last_last, H1, H2; reflexivity.
Qed.

Lemma drop_space16_head l :
  match drop_space16 l with [] => True | u :: _ => is_js_space16 u = false end.
Proof.
  induction l as [|u l IH]; simpl; auto.
  destruct (is_js_space16 u) eqn:E; simpl; auto.
Qed.

Lemma drop_space16_suffix l : exists pre, l = (pre ++ drop_space16 l)%list.
Proof.
  induction l as [|u l [pre IH]]; simpl; [exists []; reflexivity|].
  destruct (is_js_space16 u).
  - exists (u :: pre); simpl; f_equal; exact IH.
  - exists []; reflexivity.
Qed.

Lemma trim16_trimmed s : trimmed16 (trim16 s) = true.
Proof.
  unfold trimmed16, trim16.
  set (d1 := drop_space16 s).
  pose proof (drop_space16_head s) as H1; fold d1 in H1.
  destruct (drop_space16_suffix (rev d1)) as [pre Hpre].
  pose proof (drop_space16_head (rev d1)) as H2.
  set (d2 := drop_space16 (rev d1)) in *.
  destruct d2 as [|c2 t2] eqn:Ed2; [reflexivity|].
  destruct d1 as [|c1 t1] eqn:Ed1.
  - simpl in Hpre; destruct pre; discriminate.
  - assert (Hr : (rev (c2 :: t2) ++ rev pre)%list = c1 :: t1).
    { rewrite <- rev_app_distr, <- Hpre, rev_involutive; reflexivity. }
    destruct (rev (c2 :: t2)) as [|x y] eqn:Erev.
    + simpl in Erev; destruct (rev t2); discriminate.
    + simpl in Hr; inversion Hr; subst x.
      rewrite <- Erev; simpl; rewrite last_last, H1, H2; reflexivity.
Qed.

Lemma count_char_app c s1 s2 : count_char c (s1 ++ s2) = count_char c s1 + count_char c s2.
Proof. induction s1 as [|c' s1 IH]; simpl; [reflexivity|rewrite IH; lia]. Qed.

Lemma escape_char_cases c :
  (c = "&"%char /\ escape_char c = "&amp;") \/
  (c = Ascii.ascii_of_nat 160 /\ escape_char c = "&nbsp;") \/
  (c = "<"%char /\ escape_char c = "&lt;") \/
  (c = ">"%char /\ escape_char c = "&gt;") \/
  (c <> "&"%char /\ c <> "<"%char /\ c <> ">"%char /\ escape_char c = String c EmptyString).
Proof.
  unfold escape_char.
  destruct (Ascii.eqb_spec c "&"%char) as [E|N1]; [left; auto|].
  destruct (Nat.eqb_spec (Ascii.nat_of_ascii c) 160) as [E|N2].
  { right; left; split; auto.
    rewrite <- (Ascii.ascii_nat_embedding c), E; reflexivity. }
  destruct (Ascii.eqb_spec c "<"%char) as [E|N3]; [right; right; left; auto|].
  destruct (Ascii.eqb_spec c ">"%char) as [E|N4]; [right; right; right; left; auto|].
  right; right; right; right; auto.
Qed.

Lemma count_char_single c c' :
  count_char c (String c' EmptyString) = if Ascii.eqb c c' then 1 else 0.
Proof. cbn [count_char]; apply Nat.add_0_r. Qed.

Lemma escape_no_angle c s :
  (c = "<"%char \/ c = ">"%char) -> count_char c (escapeHtml s) = 0.
Proof.
  intros Hc; induction s as [|c' s IH]; simpl; [reflexivity|].
  rewrite count_char_app, IH.
  destruct (escape_char_cases c') as [[_ ->]|[[_ ->]|[[_ ->]|[[_ ->]|(N1 & N2 & N3 & ->)]]]];
    try (destruct Hc as [->| ->]; reflexivity).
  rewrite count_char_single.
  destruct (Ascii.eqb_spec c c'); [subst; destruct Hc; congruence|reflexivity].
Qed.

End AppLemmas.

Section MeshFacts.
#[local] Set Default Proof Using "Type".

Context {Key PubKey Cipher Msg Candidate : Type}.
Variable myPublicKeyJwk : PubKey.
Variable completeKeyExchange : PubKey -> option Key.
Variable encrypt : Key -> Msg -> option Cipher.
Variable dc_send_ok : string -> Cipher -> bool.
Variable decrypt : Key -> Cipher -> option Msg.
Variable addIceCandidate_ok : Candidate -> bool.

Local Abbreviation St := (@St Key PubKey Cipher Msg).
Local Abbreviation Peer := (@Peer Key Msg).
Local Abbreviation Cfg := (@Cfg Key PubKey Cipher Msg).

(** ** Operations that keep the table and the heap size *)

Lemma table_ok_shape (s s' : St) :
  peers s' = peers s -> List.length (heap s') = List.length (heap s) ->
  table_ok s -> table_ok s'.
Proof. intros Hp Hl [Hn Hf]; split; rewrite Hp; [exact Hn|rewrite Hl; exact Hf]. Qed.

Lemma shape_upd (s : St) l f :
  peers (upd_peer l f s) = peers s /\ List.length (heap (upd_peer l f s)) = List.length (heap s).
Proof. split; [reflexivity|apply length_upd_nth]. Qed.

Lemma shape_send (s : St) id m :
  peers (fst (sendToPeer encrypt dc_send_ok s id m)) = peers s /\
  List.length (heap (fst (sendToPeer encrypt dc_send_ok s id m))) = List.length (heap s).
Proof.
  unfold sendToPeer.
  destruct (lookup s id) as [[l p]|]; [|split; reflexivity].
  destruct (sharedKey p) as [k|]; [|apply shape_upd].
  destruct (dataChannel p) as [[]|]; try (split; reflexivity).
  destruct (encrypt k m) as [c|]; [destruct (dc_send_ok id c)|]; split; reflexivity.
Qed.

Lemma shape_flush ms : forall (s : St) id,
  peers (flush encrypt dc_send_ok s id ms) = peers s /\
  List.length (heap (flush encrypt dc_send_ok s id ms)) = List.length (heap s).
Proof.
  induction ms as [|m ms IH]; intros s id; simpl; [split; reflexivity|].
  destruct (IH (fst (sendToPeer encrypt dc_send_ok s id m)) id) as [A B].
  destruct (shape_send s id m) as [C D]; split; congruence.
Qed.

Lemma shape_kx_resume (s : St) t :
  peers (kx_resume completeKeyExchange encrypt dc_send_ok s t) = peers s /\
  List.length (heap (kx_resume completeKeyExchange encrypt dc_send_ok s t)) = List.length (heap s).
Proof.
  unfold kx_resume.
  destruct (nth_error (heap s) (kx_loc t)) as [p|]; [|split; reflexivity].
  destruct (completeKeyExchange (kx_pk t)) as [k|]; [|split; reflexivity].
  match goal with |- context [flush encrypt dc_send_ok ?s0 ?i ?ms] =>
    destruct (shape_flush ms s0 i) as [A B] end.
  split; [cbn [upd_peer peers]; rewrite A; reflexivity|].
  cbn [upd_peer heap]; rewrite length_upd_nth, B; cbn [emit upd_peer heap].
  apply length_upd_nth.
Qed.

Lemma shape_handle_kx (s : St) id pk :
  peers (handle_kx completeKeyExchange encrypt dc_send_ok s id pk) = peers s /\
  List.length (heap (handle_kx completeKeyExchange encrypt dc_send_ok s id pk)) = List.length (heap s).
Proof.
  unfold handle_kx; destruct (kx_start s id pk) as [t|];
    [apply shape_kx_resume|split; reflexivity].
Qed.

Lemma shape_onmessage (s : St) id f :
  peers (onmessage completeKeyExchange encrypt dc_send_ok decrypt addIceCandidate_ok s id f) = peers s /\
  List.length (heap (onmessage completeKeyExchange encrypt dc_send_ok decrypt addIceCandidate_ok s id f))
    = List.length (heap s).
Proof.
  unfold onmessage.
  destruct (lookup s id) as [[l p]|]; [|split; reflexivity].
  destruct f as [pk|c]; [apply shape_handle_kx|].
  destruct (sharedKey p) as [k|]; [|split; reflexivity].
  destruct (decrypt k c); split; reflexivity.
Qed.

Lemma shape_broadcast_loop m ids : forall (s : St),
  peers (fst (broadcast_loop encrypt dc_send_ok s ids m)) = peers s /\
  List.length (heap (fst (broadcast_loop encrypt dc_send_ok s ids m))) = List.length (heap s).
Proof.
  induction ids as [|id ids IH]; intros s; simpl; [split; reflexivity|].
  destruct (sendToPeer encrypt dc_send_ok s id m) as [s1 r] eqn:E1.
  destruct (broadcast_loop encrypt dc_send_ok s1 ids m) as [s2 rs] eqn:E2; simpl.
  pose proof (shape_send s id m) as [A B]; rewrite E1 in A, B; simpl in A, B.
  pose proof (IH s1) as [C D]; rewrite E2 in C, D; simpl in C, D.
  split; congruence.
Qed.

Lemma table_ok_alloc_set (s : St) id p :
  table_ok s ->
  table_ok (with_peers (map_set (peers s) id (List.length (heap s)))
                       (mkSt (peers s) (heap s ++ [p]) (events s) (wire s) (logs s))).
Proof.
  intros [Hn Hf]; split; simpl.
  - apply keys_set_nodup; exact Hn.
  - apply (forall_set (fun l => l < List.length (heap s ++ [p]))).
    + revert Hf; apply Forall_impl; intros e He; simpl; rewrite length_app; simpl; lia.
    + rewrite length_app; simpl; lia.
Qed.

Lemma table_ok_connect (s : St) id nm : table_ok s -> table_ok (connectToPeer s id nm).
Proof. unfold connectToPeer; simpl; apply table_ok_alloc_set. Qed.

Lemma table_ok_hpd (s : St) id : table_ok s -> table_ok (handlePeerDisconnect s id).
Proof.
  intros [Hn Hf]; unfold handlePeerDisconnect.
  destruct (lookup s id) as [[l p]|]; [|split; auto].
  split; simpl.
  - rewrite keys_delete; apply NoDup_filter; exact Hn.
  - rewrite length_upd_nth; apply forall_delete; exact Hf.
Qed.

Lemma table_ok_exec_op (s : St) o :
  table_ok s -> table_ok (exec_op myPublicKeyJwk completeKeyExchange encrypt dc_send_ok decrypt addIceCandidate_ok s o).
Proof.
  intros H; destruct o; simpl.
  - apply table_ok_connect; exact H.
  - destruct sg as [| |c|pk|]; simpl.
    + apply table_ok_alloc_set; exact H.
    + exact H.
    + destruct (lookup s from), c; try exact H.
      destruct (addIceCandidate_ok c); [exact H|apply (table_ok_shape s); auto].
    + destruct (shape_handle_kx s from pk) as [A B]; apply (table_ok_shape s); auto.
    + exact H.
  - destruct (shape_kx_resume s t) as [A B]; apply (table_ok_shape s); auto.
  - destruct (shape_send s id m) as [A B]; apply (table_ok_shape s); auto.
  - destruct (shape_broadcast_loop m (map fst (peers s)) s) as [A B];
      apply (table_ok_shape s); auto.
  - apply table_ok_hpd; exact H.
  - split; simpl; constructor.
  - destruct (shape_upd s l (set_dataChannel (Some rs))) as [A B];
      apply (table_ok_shape s); auto.
  - destruct (shape_upd s l (set_dataChannel (Some rs))) as [A B];
      apply (table_ok_shape s); auto.
  - unfold dc_onopen.
    destruct (lookup (set_readyState s l ROpen) id) as [[l' p]|];
      apply (table_ok_shape s); simpl; rewrite ?length_upd_nth; auto.
  - destruct (shape_onmessage s id f) as [A B]; apply (table_ok_shape s); auto.
  - destruct t as [[]| |]; simpl; try exact H; apply table_ok_hpd; exact H.
Qed.


(** ** The roster *)

Lemma getPeerList_cons (s : St) k l es :
  peers s = (k, l) :: es ->
  getPeerList s =
    (match nth_error (heap s) l with
     | Some p => [mkInfo k (name p) (state p)
                   (match sharedKey p with Some _ => true | None => false end)]
     | None => []
     end ++ getPeerList (with_peers es s))%list.
Proof. intros H; unfold getPeerList; rewrite H; reflexivity. Qed.

Lemma getPeerList_close (s : St) l :
  getPeerList (upd_peer l close_connection s) = getPeerList s.
Proof.
  unfold getPeerList; simpl; apply flat_map_ext; intros [k l'].
  destruct (Nat.eq_dec l l') as [->|Hne].
  - simpl; rewrite nth_upd_nth_same; destruct (nth_error (heap s) l'); reflexivity.
  - simpl; rewrite nth_upd_nth_other by exact Hne; reflexivity.
Qed.

Lemma getPeerList_ids es : forall (s : St),
  Forall (fun e => snd e < List.length (heap s)) es ->
  map info_id (getPeerList (with_peers es s)) = map fst es.
Proof.
  induction es as [|[k l] es IH]; intros s Hf; [reflexivity|].
  inversion Hf as [|? ? Hl Hf']; subst; simpl in Hl.
  rewrite (getPeerList_cons (with_peers ((k, l) :: es) s) k l es eq_refl).
  simpl; destruct (nth_error (heap s) l) eqn:E.
  - simpl; f_equal; apply (IH s Hf').
  - apply nth_error_Some in Hl; congruence.
Qed.

(** X2:  in a well-formed state, [getPeerList()] has one row per table
    entry, in table order, so its length is [getPeerCount()]. *)
Theorem getPeerList_rows (s : St) :
  table_ok s ->
  map info_id (getPeerList s) = map fst (peers s) /\
  List.length (getPeerList s) = getPeerCount s.
Proof.
  intros [_ Hf].
  assert (E : map info_id (getPeerList s) = map fst (peers s)).
  { exact (getPeerList_ids (peers s) s Hf). }
  split; [exact E|].
  unfold getPeerCount; rewrite <- (length_map info_id), E, length_map; reflexivity.
Qed.

(** ** [disconnectAll] *)

Lemma hpd_keeps_closed (s : St) id l p :
  nth_error (heap s) l = Some p -> connectionClosed p = true ->
  exists p', nth_error (heap (handlePeerDisconnect s id)) l = Some p' /\
             connectionClosed p' = true.
Proof.
  intros Hl Hc; unfold handlePeerDisconnect.
  destruct (lookup s id) as [[l' q]|]; [|exists p; auto].
  simpl; destruct (Nat.eq_dec l' l) as [->|Hne].
  - rewrite nth_upd_nth_same, Hl; exists (close_connection p); auto.
  - rewrite nth_upd_nth_other by exact Hne; exists p; auto.
Qed.

Lemma fold_hpd_keeps_closed ks : forall (s : St) l p,
  nth_error (heap s) l = Some p -> connectionClosed p = true ->
  exists p', nth_error (heap (fold_left handlePeerDisconnect ks s)) l = Some p' /\
             connectionClosed p' = true.
Proof.
  induction ks as [|k ks IH]; intros s l p Hl Hc; simpl; [exists p; auto|].
  destruct (hpd_keeps_closed s k l p Hl Hc) as (p1 & H1 & C1).
  exact (IH _ l p1 H1 C1).
Qed.

Lemma hpd_loop es : forall (s : St),
  peers s = es -> NoDup (map fst es) ->
  Forall (fun e => snd e < List.length (heap s)) es ->
  events (fold_left handlePeerDisconnect (map fst es) s) =
    (events s ++ map (fun i => PeerDisconnected (info_id i) (info_name i)) (getPeerList s))%list /\
  wire (fold_left handlePeerDisconnect (map fst es) s) = wire s /\
  (forall e, In e es -> exists p,
     nth_error (heap (fold_left handlePeerDisconnect (map fst es) s)) (snd e) = Some p /\
     connectionClosed p = true).
Proof.
  induction es as [|[k l] es IH]; intros s Hp Hn Hf.
  - simpl; unfold getPeerList; rewrite Hp; simpl; rewrite app_nil_r.
    split; [reflexivity|split; [reflexivity|intros e []]].
  - inversion Hn as [|? ? Hk Hn']; subst.
    inversion Hf as [|? ? Hl Hf']; subst; simpl in Hl.
    destruct (nth_error (heap s) l) as [p|] eqn:Ep;
      [|apply nth_error_Some in Hl; congruence].
    assert (Hlk : lookup s k = Some (l, p)).
    { unfold lookup; rewrite Hp; simpl; rewrite String.eqb_refl, Ep; reflexivity. }
    set (s1 := handlePeerDisconnect s k).
    assert (Hp1 : peers s1 = es).
    { unfold s1, handlePeerDisconnect; rewrite Hlk; simpl; rewrite Hp.
      unfold map_delete; simpl; rewrite String.eqb_refl; simpl.
      fold (map_delete es k); apply map_delete_absent, map_get_notin; exact Hk. }
    assert (Hh1 : heap s1 = upd_nth close_connection l (heap s)).
    { unfold s1, handlePeerDisconnect; rewrite Hlk; reflexivity. }
    assert (He1 : events s1 = (events s ++ [PeerDisconnected k (name p)])%list).
    { unfold s1, handlePeerDisconnect; rewrite Hlk; reflexivity. }
    assert (Hw1 : wire s1 = wire s).
    { unfold s1, handlePeerDisconnect; rewrite Hlk; reflexivity. }
    assert (Hf1 : Forall (fun e => snd e < List.length (heap s1)) es).
    { rewrite Hh1, length_upd_nth; exact Hf'. }
    destruct (IH s1 Hp1 Hn' Hf1) as (E & W & C).
    simpl; fold s1.
    assert (G : getPeerList s1 = getPeerList (with_peers es s)).
    { rewrite <- (getPeerList_close (with_peers es s) l).
      unfold getPeerList at 1; rewrite Hp1, Hh1; reflexivity. }
    split; [|split].
    + rewrite E, G, He1, (getPeerList_cons s k l es Hp), Ep.
      rewrite <- app_assoc; reflexivity.
    + rewrite W; exact Hw1.
    + intros e [<-|Hin]; [|exact (C e Hin)].
      simpl; apply (fold_hpd_keeps_closed (map fst es) s1 l (close_connection p));
        [rewrite Hh1, nth_upd_nth_same, Ep; reflexivity|reflexivity].
Qed.

(** X3:  in a well-formed state, [disconnectAll()] emits one
    'peer-disconnected' event per session, in table order and with the
    roster's names, transmits nothing, empties the table and closes the
    connection of every session. *)
Theorem disconnectAll_each_once (s : St) :
  table_ok s ->
  events (disconnectAll s) =
    (events s ++ map (fun i => PeerDisconnected (info_id i) (info_name i)) (getPeerList s))%list /\
  wire (disconnectAll s) = wire s /\
  getPeerCount (disconnectAll s) = 0 /\
  (forall e, In e (peers s) -> exists p,
     nth_error (heap (disconnectAll s)) (snd e) = Some p /\ connectionClosed p = true).
Proof.
  intros [Hn Hf].
  destruct (hpd_loop (peers s) s eq_refl Hn Hf) as (E & W & C).
  unfold disconnectAll; simpl.
  split; [exact E|split; [exact W|split; [reflexivity|exact C]]].
Qed.

(** ** Offers and [connectToPeer] for an id already in the table *)

Lemma lookup_fresh_object (s : St) id l p q :
  lookup s id = Some (l, p) ->
  let s' := with_peers (map_set (peers s) id (List.length (heap s)))
              (mkSt (peers s) (heap s ++ [q]) (events s) (wire s) (logs s)) in
  map fst (peers s') = map fst (peers s) /\
  lookup s' id = Some (List.length (heap s), q) /\
  nth_error (heap s') l = Some p.
Proof.
  unfold lookup; intros H.
  destruct (map_get (peers s) id) as [l0|] eqn:Eg; [|discriminate].
  destruct (nth_error (heap s) l0) as [p0|] eqn:En; [|discriminate].
  inversion H; subst l0 p0.
  assert (Hh : map_has (peers s) id = true) by (rewrite map_has_get, Eg; reflexivity).
  cbn [with_peers peers heap]; unfold map_set; rewrite Hh.
  split; [apply keys_replace|split].
  - rewrite map_get_replace, String.eqb_refl, Eg.
    rewrite nth_error_app2, Nat.sub_diag by lia; reflexivity.
  - rewrite nth_error_app1; [exact En|].
    apply nth_error_Some; congruence.
Qed.

(** X4:  an offer from, or [connectToPeer] to, an id that already has
    a session replaces it in place: the ids and their order are unchanged,
    the id now refers to a fresh object (responder: no channel yet;
    initiator: its own connecting channel), and the previous object is left
    as it was, its connection not closed and its queued messages not carried
    over. Nothing is emitted or transmitted. *)
Theorem existing_id_replaced (s : St) id nm l p :
  lookup s id = Some (l, p) ->
  (let s' := handleSignal completeKeyExchange encrypt dc_send_ok addIceCandidate_ok s id nm SigOffer in
   map fst (peers s') = map fst (peers s) /\
   lookup s' id = Some (List.length (heap s), mkPeer false None None nm Connecting false []) /\
   nth_error (heap s') l = Some p /\
   events s' = events s /\ wire s' = wire s) /\
  (let s' := connectToPeer s id nm in
   map fst (peers s') = map fst (peers s) /\
   lookup s' id = Some (List.length (heap s), mkPeer false (Some RConnecting) None nm Connecting true []) /\
   nth_error (heap s') l = Some p /\
   events s' = events s /\ wire s' = wire s).
Proof.
  intros H; split; cbn zeta.
  - destruct (lookup_fresh_object s id l p (mkPeer false None None nm Connecting false []) H)
      as (A & B & C).
    unfold handleSignal; simpl; split; [exact A|split; [exact B|split; [exact C|split; reflexivity]]].
  - destruct (lookup_fresh_object s id l p
                (mkPeer false (Some RConnecting) None nm Connecting true []) H) as (A & B & C).
    unfold connectToPeer; simpl; split; [exact A|split; [exact B|split; [exact C|split; reflexivity]]].
Qed.

(** ** The 'room-joined' handler *)

Lemma getPeerList_snoc_heap es : forall (s : St) q,
  Forall (fun e => snd e < List.length (heap s)) es ->
  getPeerList (mkSt es (heap s ++ [q]) (events s) (wire s) (logs s)) =
  getPeerList (with_peers es s).
Proof.
  induction es as [|[k l] es IH]; intros s q Hf; [reflexivity|].
  inversion Hf as [|? ? Hl Hf']; subst; simpl in Hl.
  rewrite (getPeerList_cons (mkSt ((k, l) :: es) (heap s ++ [q]) (events s) (wire s) (logs s)) k l es eq_refl).
  rewrite (getPeerList_cons (with_peers ((k, l) :: es) s) k l es eq_refl).
  cbn [heap with_peers]; rewrite nth_error_app1 by exact Hl.
  f_equal; exact (IH s q Hf').
Qed.

Lemma connect_new (s : St) id nm :
  table_ok s -> map_get (peers s) id = None ->
  getPeerList (connectToPeer s id nm) = (getPeerList s ++ [mkInfo id nm Connecting false])%list /\
  peers (connectToPeer s id nm) = (peers s ++ [(id, List.length (heap s))])%list /\
  table_ok (connectToPeer s id nm) /\
  events (connectToPeer s id nm) = events s /\ wire (connectToPeer s id nm) = wire s.
Proof.
  intros Hok Hg.
  assert (Hh : map_has (peers s) id = false) by (rewrite map_has_get, Hg; reflexivity).
  assert (Hp : peers (connectToPeer s id nm) = (peers s ++ [(id, List.length (heap s))])%list).
  { unfold connectToPeer; simpl; unfold map_set; rewrite Hh; reflexivity. }
  split; [|split; [exact Hp|split; [apply table_ok_connect, Hok|split; reflexivity]]].
  destruct Hok as [_ Hf].
  unfold getPeerList at 1; rewrite Hp, flat_map_app.
  unfold connectToPeer; simpl.
  rewrite nth_error_app2, Nat.sub_diag by lia; simpl.
  f_equal.
  change (getPeerList (mkSt (peers s) (heap s ++ [mkPeer false (Some RConnecting) None nm Connecting true []])
            (events s) (wire s) (logs s)) = getPeerList s).
  rewrite getPeerList_snoc_heap by exact Hf; reflexivity.
Qed.

(** X5:  for a listed peers array of distinct ids that have no
    session yet, the 'room-joined' handler adds one initiator session per
    listed peer, after the existing ones and in list order, each shown by
    [getPeerList()] as connecting and not encrypted; the table stays
    well formed and nothing is emitted or transmitted. *)
Theorem room_joined_sessions (s : St) ps :
  table_ok s -> NoDup (map fst ps) ->
  Forall (fun p => map_get (peers s) (fst p) = None) ps ->
  getPeerList (on_room_joined s ps) =
    (getPeerList s ++ map (fun p => mkInfo (fst p) (snd p) Connecting false) ps)%list /\
  table_ok (on_room_joined s ps) /\
  events (on_room_joined s ps) = events s /\ wire (on_room_joined s ps) = wire s.
Proof.
  unfold on_room_joined; revert s.
  induction ps as [|[id nm] ps IH]; intros s Hok Hnd Hnew; simpl.
  - rewrite app_nil_r; auto.
  - inversion Hnd as [|? ? Hni Hnd']; subst.
    inversion Hnew as [|? ? Hg Hnew']; subst; simpl in Hg.
    destruct (connect_new s id nm Hok Hg) as (G & P & T & E & W).
    assert (Hnew1 : Forall (fun p => map_get (peers (connectToPeer s id nm)) (fst p) = None) ps).
    { rewrite P; apply Forall_forall; intros [k v] Hin; simpl.
      rewrite map_get_snoc.
      pose proof (proj1 (Forall_forall _ ps) Hnew' (k, v) Hin) as Hkv; simpl in Hkv.
      rewrite Hkv.
      destruct (String.eqb_spec k id); [|reflexivity].
      subst; exfalso; apply Hni; exact (in_map fst _ _ Hin). }
    destruct (IH _ T Hnd' Hnew1) as (G' & T' & E' & W').
    split; [rewrite G', G, <- app_assoc; reflexivity|split; [exact T'|split; congruence]].
Qed.

(** ** [isPeerConnected] and [sendToPeer] *)

(** X6:  for an absent id, [isPeerConnected] is false and
    [sendToPeer] resolves to false; for a session without a key,
    [sendToPeer] resolves to true whatever [isPeerConnected] says; for a
    session with a key, [sendToPeer] resolves to true exactly when
    [isPeerConnected] holds, the encryption succeeds and [dc.send] does not
    throw. *)
Theorem isPeerConnected_sendToPeer (s : St) id m :
  (lookup s id = None ->
     isPeerConnected s id = false /\ snd (sendToPeer encrypt dc_send_ok s id m) = false) /\
  (forall l p, lookup s id = Some (l, p) -> sharedKey p = None ->
     snd (sendToPeer encrypt dc_send_ok s id m) = true) /\
  (forall l p k, lookup s id = Some (l, p) -> sharedKey p = Some k ->
     snd (sendToPeer encrypt dc_send_ok s id m) =
       isPeerConnected s id && match encrypt k m with Some c => dc_send_ok id c | None => false end).
Proof.
  unfold isPeerConnected, sendToPeer; split; [|split].
  - intros H; rewrite H; split; reflexivity.
  - intros l p H Hk; rewrite H, Hk; reflexivity.
  - intros l p k H Hk; rewrite H, Hk.
    destruct (dataChannel p) as [[]|]; simpl; try reflexivity.
    destruct (encrypt k m) as [c|]; [destruct (dc_send_ok id c)|]; reflexivity.
Qed.


(** ** The operations run without interruption *)

Lemma send_split (s : St) id m :
  sendToPeer encrypt dc_send_ok s id m =
    match send_start s id m with
    | (s1, SDone b) => (s1, b)
    | (s1, SEnc l k) => send_finish encrypt dc_send_ok s1 id l k m
    end.
Proof.
  unfold sendToPeer, send_start.
  destruct (lookup s id) as [[l p]|] eqn:L; [|reflexivity].
  destruct (sharedKey p) as [k|]; [|reflexivity].
  destruct (dataChannel p) as [[]|] eqn:D; try reflexivity.
  unfold send_finish; destruct (lookup_some_get s id l p L) as [_ Hn]; rewrite Hn; simpl; rewrite D.
  destruct (encrypt k m); reflexivity.
Qed.

Lemma drive_flush id l ms : forall (s : St) extra,
  drive completeKeyExchange encrypt dc_send_ok decrypt (2 * List.length ms + 1 + extra) s (TFlush id l ms) =
  upd_peer l (set_pending []) (flush encrypt dc_send_ok s id ms).
Proof.
  induction ms as [|m ms IH]; intros s extra; [reflexivity|].
  replace (2 * List.length (m :: ms) + 1 + extra) with (S (S (2 * List.length ms + 1 + extra)))
    by (simpl; lia).
  cbn [flush]; rewrite send_split.
  cbn [drive resume flush_enter].
  destruct (send_start s id m) as [s1 [b|sl k]]; cbn [fst snd].
  - rewrite <- (IH s1 (S extra)).
    replace (2 * List.length ms + 1 + S extra) with (S (2 * List.length ms + 1 + extra)) by lia.
    reflexivity.
  - cbn [drive resume]; apply IH.
Qed.

Lemma drive_derive (s : St) t extra :
  drive completeKeyExchange encrypt dc_send_ok decrypt
    (2 * List.length (match nth_error (heap s) (kx_loc t) with Some p => pendingMessages p | None => [] end)
     + 1 + extra) s (TDerive t) =
  kx_resume completeKeyExchange encrypt dc_send_ok s t.
Proof.
  unfold kx_resume; destruct (nth_error (heap s) (kx_loc t)) as [p|] eqn:Hn.
  - destruct (completeKeyExchange (kx_pk t)) as [k|] eqn:Hk.
    + set (s2 := emit (PeerEncrypted (kx_id t) (name p))
                   (upd_peer (kx_loc t) (fun q => set_state Encrypted (set_sharedKey (Some k) q)) s)).
      rewrite <- (drive_flush (kx_id t) (kx_loc t) (pendingMessages p) s2 extra).
      replace (2 * List.length (pendingMessages p) + 1 + extra)
        with (S (2 * List.length (pendingMessages p) + extra)) by lia.
      cbn [drive resume]; rewrite Hn, Hk; reflexivity.
    + replace (2 * List.length (pendingMessages p) + 1 + extra)
        with (S (2 * List.length (pendingMessages p) + extra)) by lia.
      cbn [drive resume]; rewrite Hn, Hk; reflexivity.
  - simpl; rewrite Hn; reflexivity.
Qed.

Lemma onmessage_split (s : St) id f extra :
  onmessage completeKeyExchange encrypt dc_send_ok decrypt addIceCandidate_ok s id f =
  match onmessage_call s id f with
  | (s1, None) => s1
  | (s1, Some t) =>
      drive completeKeyExchange encrypt dc_send_ok decrypt
        (2 * List.length (match lookup s id with Some (_, p) => pendingMessages p | None => [] end)
         + 1 + extra) s1 t
  end.
Proof.
  unfold onmessage, onmessage_call.
  destruct (lookup s id) as [[l p]|] eqn:L; [|reflexivity].
  destruct (lookup_some_get s id l p L) as [_ Hn].
  destruct f as [pk|c].
  - cbn [handleSignal]; unfold handle_kx, kx_call.
    destruct (kx_start s id pk) as [t|] eqn:K; [|reflexivity]; cbn [option_map].
    assert (Hl : kx_loc t = l).
    { unfold kx_start in K; rewrite L in K; destruct pk; inversion K; reflexivity. }
    rewrite <- (drive_derive s t extra), Hl, Hn; reflexivity.
  - destruct (sharedKey p) as [k|]; [|reflexivity].
    replace (2 * List.length (pendingMessages p) + 1 + extra)
      with (S (2 * List.length (pendingMessages p) + extra)) by lia.
    cbn [drive resume]; rewrite Hn.
    destruct (decrypt k c); reflexivity.
Qed.



(** ** The interleaved model keeps the table well formed *)

Lemma shape_send_start (s : St) id m :
  peers (fst (send_start s id m)) = peers s /\
  List.length (heap (fst (send_start s id m))) = List.length (heap s).
Proof.
  unfold send_start; destruct (lookup s id) as [[l p]|]; [|split; reflexivity].
  destruct (sharedKey p); [|apply shape_upd].
  destruct (dataChannel p) as [[]|]; split; reflexivity.
Qed.

Lemma shape_send_finish (s : St) id l k m :
  peers (fst (send_finish encrypt dc_send_ok s id l k m)) = peers s /\
  List.length (heap (fst (send_finish encrypt dc_send_ok s id l k m))) = List.length (heap s).
Proof.
  unfold send_finish; destruct (encrypt k m) as [c|]; [|split; reflexivity].
  destruct (option_map dataChannel (nth_error (heap s) l)) as [[[]|]|];
    try (split; reflexivity).
  destruct (dc_send_ok id c); split; reflexivity.
Qed.

Lemma shape_flush_enter (s : St) id l ms :
  peers (fst (flush_enter s id l ms)) = peers s /\
  List.length (heap (fst (flush_enter s id l ms))) = List.length (heap s).
Proof.
  destruct ms as [|m ms]; cbn [flush_enter]; [apply shape_upd|].
  pose proof (shape_send_start s id m) as H.
  destruct (send_start s id m) as [s1 [b|sl k]]; exact H.
Qed.

Lemma shape_resume (s : St) t :
  peers (fst (resume completeKeyExchange encrypt dc_send_ok decrypt s t)) = peers s /\
  List.length (heap (fst (resume completeKeyExchange encrypt dc_send_ok decrypt s t))) = List.length (heap s).
Proof.
  destruct t as [kt|id l ms|id l sl k m ms|id sl k m|id l k c]; cbn [resume].
  - destruct (nth_error (heap s) (kx_loc kt)) as [p|]; [|split; reflexivity].
    destruct (completeKeyExchange (kx_pk kt)) as [k|]; [|split; reflexivity].
    match goal with |- context [flush_enter ?s2 ?i ?l ?q] =>
      destruct (shape_flush_enter s2 i l q) as [A B] end.
    rewrite A, B; split; [reflexivity|apply length_upd_nth].
  - apply shape_flush_enter.
  - apply shape_send_finish.
  - apply shape_send_finish.
  - destruct (nth_error (heap s) l); [destruct (decrypt k c)|]; split; reflexivity.
Qed.

Lemma table_ok_astep (c : Cfg) e :
  table_ok (cst c) ->
  table_ok (cst (astep myPublicKeyJwk completeKeyExchange encrypt dc_send_ok decrypt addIceCandidate_ok c e)).
Proof.
  intros H.
  assert (Sp : forall s t, table_ok s -> table_ok (cst (spawn c s t)))
    by (intros s [t|] Hs; exact Hs).
  destruct e as [o|i m|from pk|i f|n]; simpl.
  - apply table_ok_exec_op; exact H.
  - unfold send_call; pose proof (shape_send_start (cst c) i m) as [A B].
    destruct (send_start (cst c) i m) as [s1 [b|sl k]]; apply Sp;
      exact (table_ok_shape _ _ A B H).
  - apply Sp; exact H.
  - unfold onmessage_call.
    destruct (lookup (cst c) i) as [[l p]|]; [|apply Sp; exact H].
    destruct f as [pk|c0]; [apply Sp; exact H|].
    destruct (sharedKey p); apply Sp; [exact H|exact (table_ok_shape _ _ eq_refl eq_refl H)].
  - destruct (take_task n (pool c)) as [[t rest]|]; [|exact H].
    pose proof (shape_resume (cst c) t) as [A B].
    destruct (resume completeKeyExchange encrypt dc_send_ok decrypt (cst c) t) as [s' t'].
    exact (table_ok_shape _ _ A B H).
Qed.


End MeshFacts.

(** * Properties of the event buses *)

Module BusFacts.
Section BusFacts.
Context {CB D : Type}.

Lemma map_get_on (h : list (string * list CB)) t cb t' :
  map_get (Bus.on h t cb) t' =
  if String.eqb t' t
  then Some ((match map_get h t with Some l => l | None => [] end) ++ [cb])%list
  else map_get h t'.
Proof.
  unfold Bus.on; rewrite map_has_get.
  destruct (map_get h t) as [l|] eqn:E.
  - rewrite map_get_replace, E; reflexivity.
  - unfold map_set; rewrite map_has_get, E.
    rewrite map_get_replace, !map_get_snoc, E, String.eqb_refl.
    destruct (String.eqb_spec t' t) as [->|Hne]; [reflexivity|].
    destruct (map_get h t'); reflexivity.
Qed.

Lemma emit_on (h : list (string * list CB)) t0 cb t (d : D) :
  Bus.emit (Bus.on h t0 cb) t d =
  (Bus.emit h t d ++ if String.eqb t0 t then [(cb, d)] else [])%list.
Proof.
  unfold Bus.emit; rewrite map_get_on, String.eqb_sym.
  destruct (String.eqb_spec t0 t) as [->|Hne].
  - rewrite map_app; reflexivity.
  - rewrite app_nil_r; reflexivity.
Qed.

(** X8:  after a sequence of [on(type, callback)] registrations,
    [emit(t, data)] calls the callbacks registered before plus every
    callback registered for [t], each once per registration (a callback
    registered twice is called twice) and in registration order; callbacks
    registered for other types are not called. *)
Theorem emit_registration_order (h : list (string * list CB)) regs t (d : D) :
  Bus.emit (fold_left (fun h r => Bus.on h (fst r) (snd r)) regs h) t d =
  (Bus.emit h t d ++
   map (fun cb => (cb, d)) (map snd (filter (fun r => String.eqb (fst r) t) regs)))%list.
Proof.
  revert h; induction regs as [|[t0 cb] regs IH]; intros h; simpl.
  - rewrite app_nil_r; reflexivity.
  - rewrite IH, emit_on, <- app_assoc.
    destruct (String.eqb t0 t); reflexivity.
Qed.

End BusFacts.
End BusFacts.

(** * Properties of the handshake of [MorphSignaling.connect] *)

Module ConnFacts.
Import SigConnect.
Section ConnFacts.
Variable parse : string -> option Json.

Lemma crun_app s es1 es2 : crun parse s (es1 ++ es2) = crun parse (crun parse s es1) es2.
Proof. unfold crun; apply fold_left_app. Qed.

Lemma welcome_ids_snoc es e :
  welcome_ids parse (es ++ [e]) =
  (welcome_ids parse es ++ match welcome_of parse e with Some pid => [pid] | None => [] end)%list.
Proof. unfold welcome_ids; rewrite flat_map_app; simpl; rewrite app_nil_r; reflexivity. Qed.

Lemma cstep_no_welcome s e :
  welcome_of parse e = None ->
  myPeerId (cstep parse s e) = myPeerId s /\
  promise (cstep parse s e) =
    match e with CTimeout => if truthy (myPeerId s) then promise s else reject (promise s)
               | CMessage _ => promise s end.
Proof.
  destruct e as [raw|]; simpl.
  - unfold onmessage; destruct (parse raw) as [[| ty pid |]|]; simpl; try (split; reflexivity).
    destruct (is_welcome_type ty); [discriminate|split; reflexivity].
  - intros _; unfold timeout; destruct (truthy (myPeerId s)); split; reflexivity.
Qed.

Lemma cstep_welcome s e pid :
  welcome_of parse e = Some pid ->
  myPeerId (cstep parse s e) = pid /\ promise (cstep parse s e) = resolve pid (promise s).
Proof.
  destruct e as [raw|]; simpl; [|discriminate].
  unfold onmessage; destruct (parse raw) as [[| ty pid' |]|]; try discriminate.
  destruct (is_welcome_type ty); [|discriminate].
  intros H; inversion H; subst; split; reflexivity.
Qed.

Lemma crun_settled s es :
  promise s <> Pending -> promise (crun parse s es) = promise s.
Proof.
  revert s; induction es as [|e es IH]; intros s Hs; [reflexivity|].
  simpl; fold (crun parse (cstep parse s e) es).
  assert (E : promise (cstep parse s e) = promise s).
  { destruct (welcome_of parse e) as [pid|] eqn:W.
    - destruct (cstep_welcome s e pid W) as [_ ->].
      destruct (promise s); [congruence|reflexivity|reflexivity].
    - destruct (cstep_no_welcome s e W) as [_ ->].
      destruct e; [reflexivity|].
      destruct (truthy (myPeerId s)); [reflexivity|].
      destruct (promise s); [congruence|reflexivity|reflexivity]. }
  rewrite IH; [exact E|congruence].
Qed.

Lemma crun_no_welcome s es :
  welcome_ids parse es = [] ->
  myPeerId (crun parse s es) = myPeerId s /\
  promise (crun parse s es) =
    if truthy (myPeerId s) || negb (existsb (fun e => match e with CTimeout => true | _ => false end) es)
    then promise s else reject (promise s).
Proof.
  revert s; induction es as [|e es IH]; intros s Hw.
  - simpl; rewrite orb_true_r; split; reflexivity.
  - unfold welcome_ids in Hw; simpl in Hw.
    destruct (welcome_of parse e) as [pid|] eqn:W; [discriminate|]; simpl in Hw.
    destruct (cstep_no_welcome s e W) as [M P].
    simpl; fold (crun parse (cstep parse s e) es).
    destruct (IH (cstep parse s e) Hw) as [M' P'].
    rewrite M', M; split; [reflexivity|].
    rewrite P', M, P.
    destruct e; simpl.
    + reflexivity.
    + destruct (truthy (myPeerId s)); simpl; [reflexivity|].
      destruct (promise s); simpl; destruct (existsb _ es); reflexivity.
Qed.

(** X9:  while no welcome has arrived, the promise of [connect()] is
    pending, unless the 10 s timer has fired with [myPeerId] falsy, which
    rejects it for good; the first welcome resolves the still pending
    promise with that welcome's [peerId], and no later event changes the
    outcome. *)
Theorem connect_outcome s pre e post :
  promise s = Pending -> welcome_ids parse pre = [] ->
  (forall pid, welcome_of parse e = Some pid ->
     (truthy (myPeerId s) = true \/ ~ In CTimeout pre) ->
     promise (crun parse s (pre ++ e :: post)) = Resolved pid) /\
  (e = CTimeout -> truthy (myPeerId s) = false ->
     promise (crun parse s (pre ++ e :: post)) = Rejected).
Proof.
  intros Hp Hw.
  destruct (crun_no_welcome s pre Hw) as [M P].
  rewrite crun_app; simpl; fold (crun parse (cstep parse (crun parse s pre) e) post).
  split.
  - intros pid We Hcase.
    assert (Hpre : promise (crun parse s pre) = Pending).
    { rewrite P, Hp.
      destruct Hcase as [T|Nt]; [rewrite T; reflexivity|].
      destruct (truthy (myPeerId s)); [reflexivity|simpl].
      destruct (existsb _ pre) eqn:Ex; [|reflexivity].
      apply existsb_exists in Ex as [[r|] [Hin Ht]]; [discriminate Ht|contradiction]. }
    destruct (cstep_welcome (crun parse s pre) e pid We) as [_ Pe].
    rewrite crun_settled; rewrite Pe, Hpre; [reflexivity|discriminate].
  - intros -> Hf.
    assert (Hpre : promise (cstep parse (crun parse s pre) CTimeout) = Rejected).
    { simpl; unfold timeout; rewrite M, Hf; simpl; rewrite P, Hf, Hp; simpl.
      destruct (existsb _ pre); reflexivity. }
    rewrite crun_settled; rewrite Hpre; [reflexivity|discriminate].
Qed.

(** X10:  [myPeerId] survives across [connect()] calls; when it is
    already truthy as a call starts, the timer never rejects that call's
    promise, and if no welcome arrives the promise stays pending forever. *)
Theorem reconnect_never_rejected s es :
  truthy (myPeerId s) = true -> promise s = Pending ->
  promise (crun parse s es) <> Rejected /\
  (welcome_ids parse es = [] -> promise (crun parse s es) = Pending).
Proof.
  intros Ht Hp; split.
  - enough (Inv : forall s', promise s' <> Rejected /\
                    (promise s' = Pending -> truthy (myPeerId s') = true) ->
                  promise (crun parse s' es) <> Rejected /\
                  (promise (crun parse s' es) = Pending -> truthy (myPeerId (crun parse s' es)) = true))
      by (apply (Inv s); split; [congruence|intros; exact Ht]).
    induction es as [|e es IH]; intros s' [N T]; [split; assumption|].
    simpl; fold (crun parse (cstep parse s' e) es); apply IH.
    destruct (welcome_of parse e) as [pid|] eqn:W.
    + destruct (cstep_welcome s' e pid W) as [_ ->].
      destruct (promise s'); simpl; split; congruence.
    + destruct (cstep_no_welcome s' e W) as [M ->]; rewrite M.
      destruct e; [split; assumption|].
      destruct (truthy (myPeerId s')) eqn:Tt; [split; assumption|].
      destruct (promise s'); simpl; split; try congruence.
      intros _; discriminate (T eq_refl).
  - intros Hw; destruct (crun_no_welcome s es Hw) as [_ ->]; rewrite Ht; exact Hp.
Qed.

(** X11:  after any sequence of messages and timer events, [myPeerId]
    is the [peerId] of the last welcome message (whether or not it is a
    non-empty string), or its earlier value when no welcome arrived. *)
Theorem myPeerId_last_welcome s es :
  myPeerId (crun parse s es) = last (welcome_ids parse es) (myPeerId s).
Proof.
  revert s; induction es as [|e es IH] using rev_ind; intros s; [reflexivity|].
  rewrite crun_app, welcome_ids_snoc; simpl.
  destruct (welcome_of parse e) as [pid|] eqn:W.
  - destruct (cstep_welcome (crun parse s es) e pid W) as [-> _].
    rewrite last_last; reflexivity.
  - destruct (cstep_no_welcome (crun parse s es) e W) as [-> _].
    rewrite app_nil_r; apply IH.
Qed.

End ConnFacts.
End ConnFacts.

(** * Properties of the message framing of [MorphCrypto] *)

Module CryptoFacts.
Import CryptoFraming.
Section CryptoFacts.
Context {Key : Type}.
Variable aes_gcm_encrypt : Key -> list Byte.byte -> list Byte.byte -> option (list Byte.byte).
Variable aes_gcm_decrypt : Key -> list Byte.byte -> list Byte.byte -> option (list Byte.byte).
Variable utf8_encode : string -> list Byte.byte.
Variable utf8_decode : list Byte.byte -> string.
Variable to_base64 : list Byte.byte -> string.
Variable from_base64 : string -> option (list Byte.byte).

(** X12:  when [encrypt] succeeds with a 12-byte IV, its output is
    the base64 text of the IV followed by the ciphertext, and [decrypt]
    under any key splits the decoded bytes back into exactly that IV and
    that ciphertext before calling AES-GCM (given that base64 decoding
    undoes base64 encoding). *)
Theorem frame_split k iv p ct :
  List.length iv = IV_LENGTH ->
  aes_gcm_encrypt k iv (utf8_encode p) = Some ct ->
  (forall b, from_base64 (to_base64 b) = Some b) ->
  encrypt aes_gcm_encrypt utf8_encode to_base64 k iv p = Some (to_base64 (iv ++ ct)) /\
  (forall k', decrypt aes_gcm_decrypt utf8_decode from_base64 k' (to_base64 (iv ++ ct)) =
     match aes_gcm_decrypt k' iv ct with Some d => Some (utf8_decode d) | None => None end).
Proof.
  intros Hl He Hb; split.
  - unfold encrypt; rewrite He; reflexivity.
  - intros k'; unfold decrypt; rewrite Hb.
    rewrite firstn_app, skipn_app, <- Hl, Nat.sub_diag, firstn_all, skipn_all.
    simpl; rewrite app_nil_r; reflexivity.
Qed.

(** X13:  [decrypt(k, encrypt(k, p))] is [p] when AES-GCM decryption
    undoes encryption under the same key and IV, UTF-8 decoding undoes
    encoding, and base64 decoding undoes encoding. *)
Theorem encrypt_decrypt_roundtrip k iv p c :
  List.length iv = IV_LENGTH ->
  (forall iv' pt ct, aes_gcm_encrypt k iv' pt = Some ct -> aes_gcm_decrypt k iv' ct = Some pt) ->
  (forall s, utf8_decode (utf8_encode s) = s) ->
  (forall b, from_base64 (to_base64 b) = Some b) ->
  encrypt aes_gcm_encrypt utf8_encode to_base64 k iv p = Some c ->
  decrypt aes_gcm_decrypt utf8_decode from_base64 k c = Some p.
Proof.
  intros Hl Ha Hu Hb Hc; unfold encrypt in Hc.
  destruct (aes_gcm_encrypt k iv (utf8_encode p)) as [ct|] eqn:He; [|discriminate].
  inversion Hc; subst c.
  unfold decrypt; rewrite Hb.
  rewrite firstn_app, skipn_app, <- Hl, Nat.sub_diag, firstn_all, skipn_all.
  simpl; rewrite !app_nil_r, (Ha _ _ _ He), Hu; reflexivity.
Qed.

End CryptoFacts.
End CryptoFacts.

(** * Properties of the input handling and rendering of [MorphApp] *)

Module AppFacts.
Import App AppLemmas.
Local Open Scope string_scope.

(** X14: [handleConnect] starts a connection exactly with the trimmed
    name when it is non-empty and at most 20 UTF-16 code units long (so it
    neither starts nor ends with white space); it warns 'Enter a display
    name' when the input is missing or blank, and 'Name too long' when the
    trimmed name is longer than 20 code units. *)
Theorem handleConnect_result input :
  match handleConnect input with
  | StartConnect nm => exists v, input = Some v /\ nm = trim16 v /\ nm <> [] /\
                         List.length nm <= 20 /\ trimmed16 nm = true
  | WarnEnterName => forall v, input = Some v -> trim16 v = []
  | WarnNameTooLong => exists v, input = Some v /\ 20 < List.length (trim16 v)
  end.
Proof.
  unfold handleConnect; destruct input as [v|]; simpl; [|intros v H; discriminate].
  destruct (trim16 v) as [|u t] eqn:E.
  - intros v' H; inversion H; subst; exact E.
  - destruct (Nat.ltb_spec 20 (List.length (u :: t))) as [L|L].
    + exists v; rewrite E; split; [reflexivity|exact L].
    + exists v; split; [reflexivity|].
      split; [symmetry; exact E|split; [discriminate|split; [exact L|]]].
      rewrite <- E; apply trim16_trimmed.
Qed.

Lemma trimmed_dflt ty : trimmed (if String.eqb ty "dm" then "DM" else "MorphStorm Room") = true.
Proof. destruct (String.eqb ty "dm"); reflexivity. Qed.

(** X16:  [handleCreateRoom] makes one create request (sent only when
    the socket is open) whose room name is the trimmed input when it is not
    blank, and otherwise 'DM' for a pending 'dm' type and 'MorphStorm Room'
    for any other; the name sent is never empty and never starts or ends
    with white space. *)
Theorem handleCreateRoom_result ws out myName ty input :
  exists rn,
    handleCreateRoom ws out myName ty input =
      (match ws with Some ROpen => out ++ [OCreateRoom myName rn ty] | _ => out end)%list /\
    rn <> "" /\ trimmed rn = true /\
    (forall v, input = Some v -> trim v <> "" -> rn = trim v) /\
    ((forall v, input = Some v -> trim v = "") ->
       rn = if String.eqb ty "dm" then "DM" else "MorphStorm Room").
Proof.
  unfold handleCreateRoom, createRoom, sig_send.
  destruct input as [v|]; simpl.
  - destruct (String.eqb_spec (trim v) "") as [E|N].
    + eexists; split; [reflexivity|split; [|split; [apply trimmed_dflt|split]]].
      * destruct (String.eqb ty "dm"); discriminate.
      * intros v' H; inversion H; subst; contradiction.
      * reflexivity.
    + eexists; split; [reflexivity|split; [exact N|split; [apply trim_trimmed|split]]].
      * intros v' H _; inversion H; subst; reflexivity.
      * intros H; exfalso; exact (N (H v eq_refl)).
  - eexists; split; [reflexivity|split; [|split; [apply trimmed_dflt|split]]].
    + destruct (String.eqb ty "dm"); discriminate.
    + intros v H; discriminate.
    + reflexivity.
Qed.



Lemma escape_char_head c s :
  exists c' t, escape_char c ++ s = String c' t /\ (c' = "&"%char \/ c' = c).
Proof.
  destruct (escape_char_cases c) as [[_ ->]|[[_ ->]|[[_ ->]|[[_ ->]|(_ & _ & _ & ->)]]]];
    do 2 eexists; split; try reflexivity; auto.
Qed.

Lemma escapeHtml_cons_inj c1 c2 s1 s2 :
  escape_char c1 ++ s1 = escape_char c2 ++ s2 -> c1 = c2 /\ s1 = s2.
Proof.
  destruct (escape_char_cases c1) as [[-> ->]|[[-> ->]|[[-> ->]|[[-> ->]|(A1 & L1 & G1 & ->)]]]];
  destruct (escape_char_cases c2) as [[-> ->]|[[-> ->]|[[-> ->]|[[-> ->]|(A2 & L2 & G2 & ->)]]]];
  simpl; intros H; inversion H; subst; auto; congruence.
Qed.

(** X19:  [escapeHtml] output never contains [<] or [>], and
    [escapeHtml] is injective: different texts are shown differently. *)
Theorem escapeHtml_safe_injective s s' :
  count_char "<" (escapeHtml s) = 0 /\ count_char ">" (escapeHtml s) = 0 /\
  (escapeHtml s = escapeHtml s' <-> s = s').
Proof.
  split; [apply escape_no_angle; auto|split; [apply escape_no_angle; auto|]].
  split; [|intros ->; reflexivity].
  revert s'; induction s as [|c s IH]; intros [|c' s'] H; simpl in H.
  - reflexivity.
  - destruct (escape_char_head c' (escapeHtml s')) as (x & t & E & _); rewrite E in H; discriminate.
  - destruct (escape_char_head c (escapeHtml s)) as (x & t & E & _); rewrite E in H; discriminate.
  - destruct (escapeHtml_cons_inj c c' _ _ H) as [-> E]; f_equal; apply IH, E.
Qed.

(** X20:  in the HTML [renderMessage] assigns, the only [<] and [>] are
    those of its fixed template (2 of each for a system message, 8 for a
    chat message) and, for a chat message, those of the formatted time,
    which is not escaped. *)
Theorem renderMessage_markup msg :
  count_char "<" (snd (renderMessage msg)) =
    match msg with RSystem _ => 2 | RChat _ _ ts _ => 8 + count_char "<" ts end /\
  count_char ">" (snd (renderMessage msg)) =
    match msg with RSystem _ => 2 | RChat _ _ ts _ => 8 + count_char ">" ts end.
Proof.
  destruct msg as [text|from text ts isSelf]; unfold renderMessage; cbn [snd];
    rewrite !count_char_app, !escape_no_angle by auto; cbn; split; lia.
Qed.

End AppFacts.

(** * Witnesses and counterexamples on the concrete instance *)

Module Checks.
Import Demo AsyncDemo.
Local Open Scope string_scope.



(** C2 fails as stated: a session still 'connecting' queues the message. *)
Lemma send_while_connecting_queues :
  lookup s_conn "b" = Some (0, mkPeer false (Some RConnecting) None "Bob" Connecting true []) /\
  snd (sendToPeer enc send_ok s_conn "b" 1) = true /\
  lookup (fst (sendToPeer enc send_ok s_conn "b" 1)) "b" =
    Some (0, mkPeer false (Some RConnecting) None "Bob" Connecting true [1]).
Proof. vm_compute; repeat split. Qed.

Lemma sendToPeer_outcomes_witness :
  lookup s_conn "b" = Some (0, mkPeer false (Some RConnecting) None "Bob" Connecting true []) /\
  sharedKey (mkPeer false (Some RConnecting) None "Bob" Connecting true [] : @Peer nat nat) = None /\
  snd (sendToPeer enc send_ok s_conn "b" 1) = true.
Proof.
  split; [vm_compute; reflexivity|]. split; [reflexivity|].
  destruct (sendToPeer_outcomes enc send_ok s_conn "b" 1) as [_ [H _]].
  apply (H 0 (mkPeer false (Some RConnecting) None "Bob" Connecting true []));
    [vm_compute; reflexivity | reflexivity].
Defined.



(** C4 fails as stated: Bob has a key (M = N = 1) but his channel is
    closing, so the broadcast neither transmits nor queues. *)
Lemma broadcast_keyed_closing_drops :
  getPeerList s_closing = [mkInfo "b" "Bob" Encrypted true] /\
  snd (broadcast enc send_ok s_closing 5) = [false] /\
  wire (fst (broadcast enc send_ok s_closing 5)) = wire s_closing /\
  heap (fst (broadcast enc send_ok s_closing 5)) = heap s_closing.
Proof. vm_compute; repeat split. Qed.

Lemma broadcast_outcomes_witness :
  NoDup (map fst (peers s_two)) /\ NoDup (map snd (peers s_two)) /\
  snd (broadcast enc send_ok s_two 5) = [true; true] /\
  List.length (wire (fst (broadcast enc send_ok s_two 5))) = S (List.length (wire s_two)).
Proof.
  assert (H1 : NoDup (map fst (peers s_two))).
  { vm_compute; constructor; [intros [H|[]]; discriminate | constructor; [intros []|constructor]]. }
  assert (H2 : NoDup (map snd (peers s_two))).
  { vm_compute; constructor; [intros [H|[]]; discriminate | constructor; [intros []|constructor]]. }
  destruct (broadcast_outcomes enc send_ok s_two 5 H1 H2) as [Hr [_ [_ [_ [_ [_ [_ Hc]]]]]]].
  split; [exact H1|]. split; [exact H2|]. split; [rewrite Hr; reflexivity|].
  rewrite Hc; [reflexivity|].
  intros e p k Hin Hn Hk; vm_compute in Hin; destruct Hin as [<-|[<-|[]]];
    vm_compute in Hn; inversion Hn; subst; vm_compute in Hk; inversion Hk; subst;
    split; [reflexivity | eexists; split; reflexivity].
Defined.

Lemma teardown_single_disconnect_witness :
  lookup s_enc "b" = Some (0, mkPeer false (Some ROpen) (Some 9) "Bob" Encrypted true []) /\
  existsb terminal [OnIceStateChange IceChecking; OnChannelClose; OnIceStateChange IceClosed; Explicit] = true /\
  events (fold_left (fun s t => on_teardown s "b" t)
            [OnIceStateChange IceChecking; OnChannelClose; OnIceStateChange IceClosed; Explicit] s_enc) =
    (events s_enc ++ [PeerDisconnected "b" "Bob"])%list.
Proof.
  split; [vm_compute; reflexivity|]. split; [reflexivity|].
  apply (teardown_single_disconnect s_enc "b" 0
           (mkPeer false (Some ROpen) (Some 9) "Bob" Encrypted true []));
    [vm_compute; reflexivity | reflexivity].
Defined.

Lemma disconnect_idempotent_witness :
  map_get (peers s_enc) "z" = None /\ disconnectPeer s_enc "z" = s_enc /\
  peers empty = [] /\ disconnectAll empty = empty /\
  getPeerList (disconnectAll s_two) = [].
Proof.
  destruct (disconnect_idempotent s_enc "z") as [Ha _].
  destruct (disconnect_idempotent empty "z") as [_ [_ [_ [He _]]]].
  destruct (disconnect_idempotent s_two "b") as [_ [_ [_ [_ Hr]]]].
  assert (Hz : map_get (peers s_enc) "z" = None) by (vm_compute; reflexivity).
  split; [exact Hz|]. split; [apply Ha; exact Hz|]. split; [reflexivity|].
  split; [apply He; reflexivity | exact Hr].
Defined.

Lemma reconnect_bounded_witness :
  Signaling.wf sig_exhausted /\
  Signaling.MAX_RECONNECT <= Signaling.reconnectAttempts sig_exhausted /\
  Signaling.statuses (Signaling.onclose sig_exhausted) =
    [Signaling.StDisconnected; Signaling.StFailed] /\
  (forall lb, Signaling.step (Signaling.onclose sig_exhausted) lb = None).
Proof.
  assert (W : Signaling.wf sig_exhausted).
  { unfold Signaling.wf; simpl; split; [discriminate | unfold Signaling.MAX_RECONNECT; lia]. }
  assert (Hle : Signaling.MAX_RECONNECT <= Signaling.reconnectAttempts sig_exhausted)
    by (unfold Signaling.MAX_RECONNECT; simpl; lia).
  destruct (SignalingFacts.reconnect_bounded sig_exhausted W) as [_ H].
  destruct (H Hle (Signaling.onclose sig_exhausted) eq_refl) as [Hs [_ Hn]].
  split; [exact W|]. split; [exact Hle|]. split; [exact Hs | exact Hn].
Defined.

Lemma onmessage_decrypt_failure_witness :
  lookup s_enc "b" = Some (0, mkPeer false (Some ROpen) (Some 9) "Bob" Encrypted true []) /\
  dec 9 (3, 1) = None /\
  onmessage derive enc send_ok dec ice_ok s_enc "b" (FData (3, 1)) = log (LogDecodeError "b") s_enc.
Proof.
  assert (H1 : lookup s_enc "b" =
                 Some (0, mkPeer false (Some ROpen) (Some 9) "Bob" Encrypted true []))
    by (vm_compute; reflexivity).
  split; [exact H1|]. split; [reflexivity|].
  apply (onmessage_decrypt_failure derive enc send_ok dec ice_ok s_enc "b" 0
           (mkPeer false (Some ROpen) (Some 9) "Bob" Encrypted true []) 9 (3, 1) H1
           eq_refl eq_refl).
Defined.



(** C10 on the concrete instance. *)
Lemma sendToPeer_keyed_channel_not_open_witness :
  lookup s_closing "b" = Some (0, mkPeer false (Some RClosing) (Some 9) "Bob" Encrypted true []) /\
  snd (sendToPeer enc send_ok s_closing "b" 4) = false /\
  wire (fst (sendToPeer enc send_ok s_closing "b" 4)) = wire s_closing.
Proof.
  assert (H1 : lookup s_closing "b" =
                 Some (0, mkPeer false (Some RClosing) (Some 9) "Bob" Encrypted true []))
    by (vm_compute; reflexivity).
  destruct (sendToPeer_keyed_channel_not_open enc send_ok s_closing "b" 0
              (mkPeer false (Some RClosing) (Some 9) "Bob" Encrypted true []) 9 4 H1
              eq_refl ltac:(discriminate)) as [Hr [Hw _]].
  split; [exact H1|]. split; [exact Hr | exact Hw].
Defined.
End Checks.

(** * Witnesses for the further properties *)

Module ExtraChecks.
Import Demo ExtraDemo AsyncDemo.
Local Open Scope string_scope.

Ltac table_ok_concrete :=
  unfold table_ok; vm_compute;
  split; repeat constructor; simpl; try lia; intuition discriminate.


Lemma getPeerList_rows_witness :
  table_ok s_two /\
  map info_id (getPeerList s_two) = ["b"; "c"] /\ List.length (getPeerList s_two) = getPeerCount s_two.
Proof.
  assert (H : table_ok s_two) by table_ok_concrete.
  destruct (getPeerList_rows s_two H) as [E L].
  split; [exact H|split; [rewrite E; vm_compute; reflexivity|exact L]].
Defined.

Lemma disconnectAll_each_once_witness :
  table_ok s_two /\
  events (disconnectAll s_two) =
    (events s_two ++ [PeerDisconnected "b" "Bob"; PeerDisconnected "c" "Carol"])%list /\
  getPeerCount (disconnectAll s_two) = 0.
Proof.
  assert (H : table_ok s_two) by table_ok_concrete.
  destruct (disconnectAll_each_once s_two H) as (E & _ & C & _).
  split; [exact H|split; [rewrite E; vm_compute; reflexivity|exact C]].
Defined.

Lemma existing_id_replaced_witness :
  lookup s_enc "b" = Some (0, mkPeer false (Some ROpen) (Some 9) "Bob" Encrypted true []) /\
  lookup (handleSignal derive enc send_ok ice_ok s_enc "b" "Bob" SigOffer) "b" =
    Some (1, mkPeer false None None "Bob" Connecting false []) /\
  nth_error (heap (connectToPeer s_enc "b" "Bob")) 0 =
    Some (mkPeer false (Some ROpen) (Some 9) "Bob" Encrypted true []).
Proof.
  assert (H : lookup s_enc "b" = Some (0, mkPeer false (Some ROpen) (Some 9) "Bob" Encrypted true []))
    by (vm_compute; reflexivity).
  destruct (existing_id_replaced derive enc send_ok ice_ok s_enc "b" "Bob" 0 _ H)
    as [(_ & A & _) (_ & _ & B & _)].
  split; [exact H|split; [exact A|exact B]].
Defined.

Lemma room_joined_sessions_witness :
  table_ok s_enc /\ NoDup ["c"; "d"] /\
  getPeerList (on_room_joined s_enc [("c", "Carol"); ("d", "Dan")]) =
    [mkInfo "b" "Bob" Encrypted true; mkInfo "c" "Carol" Connecting false;
     mkInfo "d" "Dan" Connecting false].
Proof.
  assert (H : table_ok s_enc) by table_ok_concrete.
  assert (N : NoDup (map fst [("c", "Carol"); ("d", "Dan")])).
  { simpl; repeat constructor; simpl; intuition discriminate. }
  destruct (room_joined_sessions s_enc [("c", "Carol"); ("d", "Dan")] H N)
    as [G _]; [repeat constructor|].
  split; [exact H|split; [exact N|rewrite G; vm_compute; reflexivity]].
Defined.

Lemma isPeerConnected_sendToPeer_witness :
  isPeerConnected s_gone "b" = false /\ snd (sendToPeer enc send_ok s_gone "b" 1) = false /\
  isPeerConnected s_conn "b" = false /\ snd (sendToPeer enc send_ok s_conn "b" 1) = true /\
  snd (sendToPeer enc send_ok s_closing "b" 4) = false.
Proof.
  destruct (isPeerConnected_sendToPeer enc send_ok s_gone "b" 1) as [A _].
  destruct (isPeerConnected_sendToPeer enc send_ok s_conn "b" 1) as [_ [B _]].
  destruct (isPeerConnected_sendToPeer enc send_ok s_closing "b" 4) as [_ [_ C]].
  destruct A as [A1 A2]; [vm_compute; reflexivity|].
  split; [exact A1|split; [exact A2|split; [vm_compute; reflexivity|split]]].
  - apply (B 0 (mkPeer false (Some RConnecting) None "Bob" Connecting true [])); vm_compute; reflexivity.
  - rewrite (C 0 (mkPeer false (Some RClosing) (Some 9) "Bob" Encrypted true []) 9);
      vm_compute; reflexivity.
Defined.


Lemma connect_outcome_witness :
  SigConnect.promise
    (SigConnect.crun parse_demo (SigConnect.mkC None SigConnect.Pending [])
       ([SigConnect.CMessage "x"] ++ SigConnect.CMessage "w" :: [SigConnect.CTimeout])) =
    SigConnect.Resolved (Some "p1") /\
  SigConnect.promise
    (SigConnect.crun parse_demo (SigConnect.mkC None SigConnect.Pending [])
       ([SigConnect.CMessage "x"] ++ SigConnect.CTimeout :: [SigConnect.CMessage "w"])) =
    SigConnect.Rejected.
Proof.
  split.
  - destruct (ConnFacts.connect_outcome parse_demo (SigConnect.mkC None SigConnect.Pending [])
                [SigConnect.CMessage "x"] (SigConnect.CMessage "w") [SigConnect.CTimeout]
                eq_refl eq_refl) as [A _].
    apply A; [reflexivity|right; intros [E|[]]; discriminate E].
  - destruct (ConnFacts.connect_outcome parse_demo (SigConnect.mkC None SigConnect.Pending [])
                [SigConnect.CMessage "x"] SigConnect.CTimeout [SigConnect.CMessage "w"]
                eq_refl eq_refl) as [_ B].
    apply B; reflexivity.
Defined.

Lemma reconnect_never_rejected_witness :
  SigConnect.promise
    (SigConnect.crun parse_demo (SigConnect.mkC (Some "p0") SigConnect.Pending [])
       [SigConnect.CTimeout; SigConnect.CMessage "x"]) = SigConnect.Pending.
Proof.
  destruct (ConnFacts.reconnect_never_rejected parse_demo
              (SigConnect.mkC (Some "p0") SigConnect.Pending [])
              [SigConnect.CTimeout; SigConnect.CMessage "x"] eq_refl eq_refl) as [_ B].
  apply B; reflexivity.
Defined.

Lemma frame_split_witness :
  CryptoFraming.encrypt aes_enc_demo String.list_byte_of_string String.string_of_list_byte 3 iv_demo "hi" =
    Some (String.string_of_list_byte (iv_demo ++ rev (String.list_byte_of_string "hi"))) /\
  CryptoFraming.decrypt aes_dec_demo String.string_of_list_byte from_b64_demo 5
    (String.string_of_list_byte (iv_demo ++ rev (String.list_byte_of_string "hi"))) =
    Some (String.string_of_list_byte (String.list_byte_of_string "hi")).
Proof.
  destruct (CryptoFacts.frame_split aes_enc_demo aes_dec_demo String.list_byte_of_string
              String.string_of_list_byte String.string_of_list_byte from_b64_demo 3 iv_demo "hi"
              (rev (String.list_byte_of_string "hi")) eq_refl eq_refl) as [A B].
  - intros b; unfold from_b64_demo; rewrite String.list_byte_of_string_of_list_byte; reflexivity.
  - split; [exact A|rewrite (B 5); unfold aes_dec_demo; rewrite rev_involutive; reflexivity].
Defined.

Lemma encrypt_decrypt_roundtrip_witness :
  CryptoFraming.decrypt aes_dec_demo String.string_of_list_byte from_b64_demo 3
    (String.string_of_list_byte (iv_demo ++ rev (String.list_byte_of_string "hi"))) = Some "hi".
Proof.
  apply (CryptoFacts.encrypt_decrypt_roundtrip aes_enc_demo aes_dec_demo String.list_byte_of_string
           String.string_of_list_byte String.string_of_list_byte from_b64_demo 3 iv_demo "hi").
  - reflexivity.
  - intros iv' pt ct E; unfold aes_enc_demo in E; inversion E; subst.
    unfold aes_dec_demo; rewrite rev_involutive; reflexivity.
  - apply String.string_of_list_byte_of_string.
  - intros b; unfold from_b64_demo; rewrite String.list_byte_of_string_of_list_byte; reflexivity.
  - reflexivity.
Defined.

End ExtraChecks.
